(** * Leader election and key watch client (package [leader])

    A shallow embedding of the etcd-backed client of [lib/leader]:
    [AddWatch], [AddVoter], [getFirstValue], [elect] and [Close].

    Every goroutine body is an interaction tree over the calls it makes to
    its surroundings (the etcd keys API, the clock, tickers, channels and
    the logger).  The replies of the surroundings are not fixed by the
    client, so executions are taken against a script of replies, and the
    calls a goroutine made are collected in a trace.  [Close] is two atomic
    actions on the client; calls of [Close] are interleaved by a schedule.

    What holds of a goroutine over its whole life is stated as a rule on
    its calls that every run keeps to.  The loop of [AddWatchCallback] and
    the path of the user cgroup in [lib/box] ([setProcessUserCgroupImpl])
    are pure functions. *)

From Stdlib Require Import ZArith List String Bool Arith Lia.
From ITree Require Import ITree Eq.Shallow.
Import ListNotations.
Import ITreeNotations.
Local Open Scope string_scope.
Local Open Scope list_scope.
Local Open Scope Z_scope.
Local Open Scope itree_scope.

Set Implicit Arguments.

(* ------------------------------------------------------------------ *)
(** ** Time *)

Module time.

(** [time.Duration] is a signed 64-bit count of nanoseconds. *)
Definition Duration := Z.

(** A [time.Time] instant, in nanoseconds since the epoch. *)
Definition Time := Z.

Definition Millisecond : Duration := 1000000.
Definition Second : Duration := 1000000000.

Definition minDuration : Duration := - 2 ^ 63.
Definition maxDuration : Duration := 2 ^ 63 - 1.

Definition is_Duration (d : Z) : Prop := minDuration <= d <= maxDuration.

(** [t.Sub(u)]: the difference, saturated at the ends of [Duration]. *)
Definition Sub (t u : Time) : Duration :=
  let d := t - u in
  if d <? minDuration then minDuration
  else if maxDuration <? d then maxDuration
  else d.

(** Division of a [Duration] by a constant truncates towards zero. *)
Definition div (d : Duration) (n : Z) : Duration := Z.quot d n.

End time.

(* ------------------------------------------------------------------ *)
(** ** Errors and responses of the etcd client *)

(** The error values the client tells apart: by identity
    ([context.Canceled]), by dynamic type ([*client.ClusterError],
    [client.Error]) or not at all.  [Errorf] and [Wrap] are the errors
    made by [trace.Errorf] and [trace.Wrap]. *)
#[warnings="-register-all"]
Inductive error : Type :=
| ContextCanceled
| ClusterError (Errors : list error)
| ClientError (Code : Z)
| OtherError (msg : string)
| Errorf (msg : string)
| Wrap (err : error).

(** The error codes of the etcd client that the package compares with. *)
Definition ErrorCodeKeyNotFound : Z := 100.
Definition ErrorCodeNodeExist : Z := 105.
Definition ErrorCodeEventIndexCleared : Z := 401.

Definition IsNotFound (err : error) : bool :=
  match err with
  | ClientError code => code =? ErrorCodeKeyNotFound
  | _ => false
  end.

Definition IsAlreadyExist (err : error) : bool :=
  match err with
  | ClientError code => code =? ErrorCodeNodeExist
  | _ => false
  end.

(** The fields of [client.Node] the package reads.  [Expiration] is a
    pointer in the client and is nil for a key without TTL. *)
Record Node : Type := mkNode {
  Value : string;
  ModifiedIndex : Z;
  Expiration : option time.Time
}.

(** [client.Response]; [RNode] is its field [Node]. *)
Record Response : Type := mkResponse { RNode : Node }.

(** What a call of the keys API returns: [(re, nil)] or [(nil, err)]. *)
Inductive result : Type :=
| Ok (re : Response)
| Err (err : error).

Inductive PrevExistType : Type := PrevIgnore | PrevExist | PrevNoExist.

(** [client.SetOptions]; fields left out of a literal are zero.
    [PrevExistOpt] is its field [PrevExist]. *)
Record SetOptions : Type := mkSetOptions {
  PrevValue : string;
  PrevIndex : Z;
  PrevExistOpt : PrevExistType;
  TTL : time.Duration
}.

(** [client.WatcherOptions] as held by the watcher [api.Watcher] makes. *)
Record Watcher : Type := mkWatcher {
  WatchKey : string;
  AfterIndex : Z
}.

(* ------------------------------------------------------------------ *)
(** ** Log lines *)

(** The lines the package logs, one constructor for each call of the
    logger, with the values it formats. *)
Inductive logline : Type :=
| LogResetUnexpected (key : string) (err : error)
    (* resetWatch: "unexpected error: ..., returning" *)
| LogResetClosing (key : string)
    (* resetWatch: "client is closing, return" *)
| LogGotCurrent (key value : string)
    (* resetWatch: "got current value '...' for key '...'" *)
| LogResetAt (key : string) (index : Z)
    (* resetWatch: "reset watch at ..." *)
| LogSkipEmpty (key : string)
    (* "watcher.Next for ... skipping empty value" *)
| LogGot (key value : string)
    (* "watcher.Next for ... got ..." *)
| LogBackingOff (d : time.Duration)
    (* "backing off for ..." *)
| LogClosing
    (* "client is closing, return" *)
| LogClusterError (err : error)
    (* "unexpected cluster error: ..." *)
| LogWatchIndex (err : error)
    (* "watch index error, resetting watch index: ..." *)
| LogUnexpectedWatch (err : error)
    (* "unexpected watch error: ..." *)
| LogVoterError (err : error)
    (* AddVoter: "voter error: ..." *)
| LogProbeUnexpected (err : error)
    (* getFirstValue: "unexpected watcher error: ..." *)
| LogProbeClose
    (* getFirstValue: "watcher got client close signal" *)
| LogCandidateStart (key value : string) (term : time.Duration)
    (* elect: "... start" *)
| LogNotFoundElect (key value : string)
    (* elect: "... key not found, try to elect myself" *)
| LogElected (key value : string)
    (* elect: "... successfully elected" *)
| LogLeaderIs (key value leader : string)
    (* elect: "... leader: is ..., try next time" *)
| LogExtended (key value : string).
    (* elect: "... extended lease" *)

(* ------------------------------------------------------------------ *)
(** ** The calls a goroutine makes *)

(** Which case of a two-way [select] ran: the first one (the ticker fired,
    the value was sent) or [<-l.closeC]. *)
Inductive selected : Type := Fired | Closed.

(** The calls, indexed by the type of what they return:
    - [Get key] is [api.Get(ctx, key, nil)] and [SetKey key value opts] is
      [api.Set(ctx, key, value, opts)];
    - [Next w] is [watcher.Next(ctx)] on the watcher [w]; [ctx] is
      cancelled when [l.closeC] is closed, which the reply shows as
      [context.Canceled];
    - [UtcNow] is [l.clock.UtcNow()];
    - [NewTicker d], [TickerStop] and [Sleep d] are [time.NewTicker(d)],
      the deferred [Stop()] of that ticker and [time.Sleep(d)];
      [time.NewTicker] panics on a period that is not positive, which
      the replies below do not show: a run that makes such a ticker
      is not one of the code;
    - [SelectTick] is [select] over the ticker and [l.closeC];
    - [SelectSend v] is [select] over [valuesC <- v] and [l.closeC];
    - [NilDeref] is a nil pointer dereference, which never returns. *)
Variant leaderE : Type -> Type :=
| Get (key : string) : leaderE result
| SetKey (key value : string) (opts : SetOptions) : leaderE result
| Next (w : Watcher) : leaderE result
| UtcNow : leaderE time.Time
| NewTicker (d : time.Duration) : leaderE unit
| TickerStop : leaderE unit
| Sleep (d : time.Duration) : leaderE unit
| Log (l : logline) : leaderE unit
| SelectTick : leaderE selected
| SelectSend (v : string) : leaderE selected
| NilDeref : leaderE Empty_set.

(* ------------------------------------------------------------------ *)
(** ** Running a goroutine against a script of replies *)

(** The replies of the surroundings, in the order the calls are made.
    Calls that return nothing ([NewTicker], [Stop], [Sleep], logging) take
    no reply. *)
Inductive reply : Type :=
| RGet (r : result)
| RSet (r : result)
| RNext (r : result)
| RNow (t : time.Time)
| RSelect (s : selected).

Definition answer {X} (e : leaderE X) (script : list reply)
  : option (X * list reply) :=
  match e in leaderE T return option (T * list reply) with
  | Get _ => match script with RGet r :: s => Some (r, s) | _ => None end
  | SetKey _ _ _ => match script with RSet r :: s => Some (r, s) | _ => None end
  | Next _ => match script with RNext r :: s => Some (r, s) | _ => None end
  | UtcNow => match script with RNow t :: s => Some (t, s) | _ => None end
  | SelectTick => match script with RSelect c :: s => Some (c, s) | _ => None end
  | SelectSend _ => match script with RSelect c :: s => Some (c, s) | _ => None end
  | NewTicker _ => Some (tt, script)
  | TickerStop => Some (tt, script)
  | Sleep _ => Some (tt, script)
  | Log _ => Some (tt, script)
  | NilDeref => None
  end.

(** A call together with what it returned. *)
Inductive event : Type :=
| Evt {X} (e : leaderE X) (x : X).

(** How a run ends: the goroutine returned, it is held in a call that did
    not return (no reply in the script, or a nil dereference, which
    panics), or the step budget of the run is used up. *)
Inductive outcome (R : Type) : Type :=
| Returned (r : R)
| Halted {X} (e : leaderE X)
| OutOfFuel.
Arguments Halted {R X} e.
Arguments OutOfFuel {R}.

Record run_result (R : Type) : Type := mkRun {
  trace : list event;
  out : outcome R;
  rest : list reply;
  fuel_left : nat
}.

Fixpoint run {R} (fuel : nat) (t : itree leaderE R) (script : list reply)
  : run_result R :=
  match observe t with
  | RetF r => mkRun [] (Returned r) script fuel
  | TauF t' =>
      match fuel with
      | O => mkRun [] OutOfFuel script O
      | S f => run f t' script
      end
  | VisF e k =>
      match fuel with
      | O => mkRun [] OutOfFuel script O
      | S f =>
          match answer e script with
          | Some (x, s') =>
              let r := run f (k x) s' in
              mkRun (Evt e x :: trace r) (out r) (rest r) (fuel_left r)
          | None => mkRun [] (Halted e) script f
          end
      end
  end.

(** The values a run offered on the output stream and had taken. *)
Fixpoint sends (tr : list event) : list string :=
  match tr with
  | [] => []
  | Evt (SelectSend v) Fired :: tr' => v :: sends tr'
  | _ :: tr' => sends tr'
  end.

(** The writes a run asked of the store. *)
Fixpoint writes (tr : list event) : list (string * string * SetOptions) :=
  match tr with
  | [] => []
  | Evt (SetKey k v o) _ :: tr' => (k, v, o) :: writes tr'
  | _ :: tr' => writes tr'
  end.

(** The lines a run logged. *)
Fixpoint logged (tr : list event) : list logline :=
  match tr with
  | [] => []
  | Evt (Log l) _ :: tr' => l :: logged tr'
  | _ :: tr' => logged tr'
  end.

(** The backoff sleeps of a run. *)
Fixpoint sleeps (tr : list event) : list time.Duration :=
  match tr with
  | [] => []
  | Evt (Sleep d) _ :: tr' => d :: sleeps tr'
  | _ :: tr' => sleeps tr'
  end.

(** The replies the store gave to the reads of a run. *)
Fixpoint reads (tr : list event) : list result :=
  match tr with
  | [] => []
  | Evt (Get _) r :: tr' => r :: reads tr'
  | _ :: tr' => reads tr'
  end.

(* ------------------------------------------------------------------ *)
(** ** [elect] *)

(** [log.Infof] and [log.Errorf]. *)
Definition log (l : logline) : itree leaderE unit := ITree.trigger (Log l).

(** A dereference of a nil pointer: the goroutine panics there. *)
Definition nil_deref {R} : itree leaderE R :=
  x <- ITree.trigger NilDeref;; match x : Empty_set with end.

(** [elect]: what it returns is the error, [None] for nil.  The lease is
    fresh while [Expiration - now > term/2]; [Expiration] is a pointer, and
    [Sub] on a nil one panics.  A panic runs what the goroutine has
    deferred before it dies: [deferred] is what the caller of [elect] has
    deferred at the call. *)
Definition elect_under (deferred : itree leaderE unit)
    (key value : string) (term : time.Duration)
  : itree leaderE (option error) :=
  log (LogCandidateStart key value term);;
  r <- ITree.trigger (Get key);;
  match r with
  | Err err =>
      if negb (IsNotFound err) then Ret (Some (Wrap err))
      else
        log (LogNotFoundElect key value);;
        r' <- ITree.trigger
                (SetKey key value
                   {| TTL := term; PrevExistOpt := PrevNoExist;
                      PrevValue := ""; PrevIndex := 0 |});;
        match r' with
        | Err err' => Ret (Some (Wrap err'))
        | Ok _ => log (LogElected key value);; Ret None
        end
  | Ok resp =>
      if negb (Value (RNode resp) =? value)%string then
        log (LogLeaderIs key value (Value (RNode resp)));; Ret None
      else
        now <- ITree.trigger UtcNow;;
        match Expiration (RNode resp) with
        | None => deferred;; nil_deref
        | Some expiration =>
            if time.div term 2 <? time.Sub expiration now then Ret None
            else
              r' <- ITree.trigger
                      (SetKey key value
                         {| TTL := term; PrevValue := value;
                            PrevIndex := ModifiedIndex (RNode resp);
                            PrevExistOpt := PrevIgnore |});;
              match r' with
              | Err err' => Ret (Some (Wrap err'))
              | Ok _ => log (LogExtended key value);; Ret None
              end
        end
  end.

(** [elect] called with nothing deferred. *)
Definition elect (key value : string) (term : time.Duration)
  : itree leaderE (option error) :=
  elect_under (Ret tt) key value term.

(* ------------------------------------------------------------------ *)
(** ** [getFirstValue] *)

(** One turn of the [for] loop: [inl tt] goes round again, [inr] returns. *)
Definition getFirstValue_step (key : string) (_ : unit)
  : itree leaderE (unit + (option Response * option error)) :=
  r <- ITree.trigger (Get key);;
  match r with
  | Ok re => Ret (inr (Some re, None))
  | Err err =>
      (if negb (IsNotFound err) then log (LogProbeUnexpected err) else Ret tt);;
      c <- ITree.trigger SelectTick;;
      match c with
      | Fired => Ret (inl tt)
      | Closed => log LogProbeClose;; Ret (inr (None, None))
      end
  end.

(** The [for] loop of [getFirstValue]. *)
Definition getFirstValue_loop (key : string)
  : itree leaderE (option Response * option error) :=
  ITree.iter (getFirstValue_step key) tt.

(** [getFirstValue]: the pair [(re, err)] it returns, [None] for nil. *)
Definition getFirstValue (key : string) (retryPeriod : time.Duration)
  : itree leaderE (option Response * option error) :=
  ITree.trigger (NewTicker retryPeriod);;
  r <- getFirstValue_loop key;;
  ITree.trigger TickerStop;;
  Ret r.

(* ------------------------------------------------------------------ *)
(** ** [utils.Backoff] *)

Module Backoff.

(** Modelled from the spec: the type [utils.Backoff] of [lib/utils],
    whose source is missing.  The fields are the ones [AddWatch] sets and
    reads. *)
Record t : Type := mk {
  Initial : time.Duration;
  Max : time.Duration;
  Tries : Z
}.

(** Modelled from the spec: [Reset] of the missing [utils.Backoff], "a
    [Reset] that returns the counter to zero". *)
Definition Reset (b : t) : t := mk (Initial b) (Max b) 0.

(** Modelled from the spec: [Delay] of the missing [utils.Backoff],
    "successive delays [d_1, d_2, ...] bounded by [[Initial, Max]],
    doubling on each call", with "a [Tries] counter exposed for callers
    that want to change strategy after N failures".  The result is the
    delay and the backoff after the call. *)
Definition Delay (b : t) : time.Duration * t :=
  let tries := Tries b + 1 in
  (Z.min (Max b) (Initial b * 2 ^ (tries - 1)), mk (Initial b) (Max b) tries).

End Backoff.

(* ------------------------------------------------------------------ *)
(** ** [AddWatch] *)

(** The variables of the watcher goroutine that [resetWatch] and the loop
    share. *)
Record watch_vars : Type := mkVars {
  watcher : option Watcher;
  re : option Response;
  err : option error;
  backoff : Backoff.t
}.

(** Assignments to these variables. *)
Definition set_watcher (v : watch_vars) (w : option Watcher) : watch_vars :=
  mkVars w (re v) (err v) (backoff v).
Definition set_re_err (v : watch_vars) (r : option Response) (e : option error)
  : watch_vars :=
  mkVars (watcher v) r e (backoff v).
Definition set_err (v : watch_vars) (e : option error) : watch_vars :=
  mkVars (watcher v) (re v) e (backoff v).
Definition set_backoff (v : watch_vars) (b : Backoff.t) : watch_vars :=
  mkVars (watcher v) (re v) (err v) b.

(** The closure [resetWatch]: what it returns and the variables after. *)
Definition resetWatch (key : string) (retry : time.Duration) (v : watch_vars)
  : itree leaderE (option error * watch_vars) :=
  p <- getFirstValue key retry;;
  let v := set_re_err v (fst p) (snd p) in
  match err v with
  | Some e => log (LogResetUnexpected key e);; Ret (Some e, v)
  | None =>
      match re v with
      | None => log (LogResetClosing key);; Ret (err v, v)
      | Some r =>
          log (LogGotCurrent key (Value (RNode r)));;
          let v := set_watcher v
                     (Some {| WatchKey := key;
                              AfterIndex := ModifiedIndex (RNode r) |}) in
          log (LogResetAt key (ModifiedIndex (RNode r)));;
          Ret (None, v)
      end
  end.

(** The [select] that ends a turn of the loop: [inl] goes round again, [inr]
    returns from the goroutine. *)
Definition send_value (v : watch_vars) : itree leaderE (watch_vars + unit) :=
  match re v with
  | None => nil_deref
  | Some r =>
      c <- ITree.trigger (SelectSend (Value (RNode r)));;
      match c with
      | Fired => Ret (inl v)
      | Closed => Ret (inr tt)
      end
  end.

(** The "index cleared" case after [err = resetWatch()]: [continue] on an
    error, on to the [select] otherwise. *)
Definition after_reset (p : option error * watch_vars)
  : itree leaderE (watch_vars + unit) :=
  let v := set_err (snd p) (fst p) in
  match err v with
  | Some _ => Ret (inl v)
  | None => send_value v
  end.

(** The last branch of the error cases: an error of no known kind. *)
Definition unknown_error (key : string) (retry : time.Duration)
    (e : error) (v : watch_vars) : itree leaderE (watch_vars + unit) :=
  log (LogUnexpectedWatch e);;
  v' <- (if 10 <? Backoff.Tries (backoff v)
         then p <- resetWatch key retry v;; Ret (snd p)
         else Ret v);;
  Ret (inl v').

(** The branch taken on [err != nil], after the backoff. *)
Definition on_error (key : string) (retry : time.Duration)
    (e : error) (v : watch_vars) : itree leaderE (watch_vars + unit) :=
  match e with
  | ContextCanceled => log LogClosing;; Ret (inr tt)
  | ClusterError errs =>
      match errs with
      | ContextCanceled :: _ => log LogClosing;; Ret (inr tt)
      | _ => log (LogClusterError e);; Ret (inl v)
      end
  | ClientError code =>
      if code =? ErrorCodeEventIndexCleared then
        log (LogWatchIndex e);;
        p <- resetWatch key retry v;;
        after_reset p
      else unknown_error key retry e v
  | _ => unknown_error key retry e v
  end.

(** One turn of the [for] loop of the watcher goroutine. *)
Definition watch_step (key : string) (retry : time.Duration) (v : watch_vars)
  : itree leaderE (watch_vars + unit) :=
  match watcher v with
  | None => nil_deref
  | Some w =>
      r <- ITree.trigger (Next w);;
      match r with
      | Ok resp =>
          let v := set_re_err v (Some resp) None in
          if (Value (RNode resp) =? "")%string then
            log (LogSkipEmpty key);; Ret (inl v)
          else
            log (LogGot key (Value (RNode resp)));;
            let v := set_backoff v (Backoff.Reset (backoff v)) in
            send_value v
      | Err e =>
          let v := set_re_err v None (Some e) in
          let d := Backoff.Delay (backoff v) in
          let v := set_backoff v (snd d) in
          (if 1 <? Backoff.Tries (backoff v)
           then log (LogBackingOff (fst d));; ITree.trigger (Sleep (fst d))
           else Ret tt);;
          on_error key retry e v
      end
  end.

(** The [for] loop of the watcher goroutine. *)
Definition watch_loop (key : string) (retry : time.Duration) (v : watch_vars)
  : itree leaderE unit :=
  ITree.iter (watch_step key retry) v.

(** The variables as declared: nil but for the backoff. *)
Definition watch_init : watch_vars :=
  {| watcher := None; re := None; err := None;
     backoff := {| Backoff.Initial := 50 * time.Millisecond;
                   Backoff.Max := 10 * time.Second;
                   Backoff.Tries := 0 |} |}.

(** The goroutine [AddWatch] starts; the sends go to [valuesC].  The
    context of [watcher.Next] is made after the first [resetWatch] and is
    cancelled by a goroutine of its own when [l.closeC] is closed. *)
Definition AddWatch (key : string) (retry : time.Duration)
  : itree leaderE unit :=
  p <- resetWatch key retry watch_init;;
  let v := set_err (snd p) (fst p) in
  match err v with
  | Some _ => Ret tt
  | None => watch_loop key retry v
  end.

(* ------------------------------------------------------------------ *)
(** ** [AddVoter] *)

(** [if err != nil { log.Infof("voter error: %v", err) }]. *)
Definition log_voter_error (e : option error) : itree leaderE unit :=
  match e with
  | Some e => log (LogVoterError e)
  | None => Ret tt
  end.

(** One turn of the [for]/[select] of the voter goroutine.  The loop runs
    under [defer ticker.Stop()]: the [Stop] is made on the [return], and
    by a panic of [elect] before the goroutine dies. *)
Definition voter_step (key value : string) (term : time.Duration) (_ : unit)
  : itree leaderE (unit + unit) :=
  c <- ITree.trigger SelectTick;;
  match c with
  | Fired =>
      e <- elect_under (ITree.trigger TickerStop) key value term;;
      log_voter_error e;;
      Ret (inl tt)
  | Closed =>
      log LogClosing;;
      ITree.trigger TickerStop;;
      Ret (inr tt)
  end.

(** The [for] loop of the voter goroutine. *)
Definition voter_loop (key value : string) (term : time.Duration)
  : itree leaderE unit :=
  ITree.iter (voter_step key value term) tt.

(** The goroutine [AddVoter] starts.  Its first [elect] comes before the
    ticker is made and its [Stop] deferred. *)
Definition voter (key value : string) (term : time.Duration)
  : itree leaderE unit :=
  e <- elect key value term;;
  log_voter_error e;;
  ITree.trigger (NewTicker (time.div term 5));;
  voter_loop key value term.

(** [AddVoter]: the error it returns and the goroutine it starts, if any. *)
Definition AddVoter (key value : string) (term : time.Duration)
  : option error * option (itree leaderE unit) :=
  if (value =? "")%string then
    (Some (Errorf "voter value for key can not be empty"), None)
  else if term <? time.Second then
    (Some (Errorf "term can not be < 1second"), None)
  else (None, Some (voter key value term)).

(* ------------------------------------------------------------------ *)
(** ** [Close] *)

(** The two things [Close] does to the client: the atomic
    [CompareAndSwapUint32] on [l.closed], and [close(l.closeC)]. *)
Variant sessionE : Type -> Type :=
| CompareAndSwapClosed (old new : Z) : sessionE bool
| CloseCloseC : sessionE unit.

(** [Close]: what it returns is the error, [None] for nil. *)
Definition Close : itree sessionE (option error) :=
  swapped <- ITree.trigger (CompareAndSwapClosed 0 1);;
  if negb swapped then Ret None
  else ITree.trigger CloseCloseC;; Ret None.

(** The part of [Client] that [Close] touches: the [closed] word and
    whether [closeC] is still open. *)
Record Client : Type := mkClient {
  closed : Z;
  closeC_open : bool
}.

(** The client [NewClient] returns. *)
Definition NewClient : Client := {| closed := 0; closeC_open := true |}.

(** One atomic action on the client.  Closing a closed channel panics:
    there is no result then. *)
Definition perform {X} (e : sessionE X) (l : Client) : option (X * Client) :=
  match e in sessionE T return option (T * Client) with
  | CompareAndSwapClosed old new =>
      if closed l =? old
      then Some (true, {| closed := new; closeC_open := closeC_open l |})
      else Some (false, l)
  | CloseCloseC =>
      if closeC_open l
      then Some (tt, {| closed := closed l; closeC_open := false |})
      else None
  end.

(** Whether an action is [close(l.closeC)]. *)
Definition is_close_chan {X} (e : sessionE X) : bool :=
  match e with
  | CloseCloseC => true
  | _ => false
  end.

(** Calls of [Close] in flight on one client, each at its own point of
    progress, with the number of times [closeC] was closed so far. *)
Record world : Type := mkWorld {
  client : Client;
  calls : list (itree sessionE (option error));
  closes : nat;
  panicked : bool
}.

(** The list [l] with [x] at index [i]; [l] itself when [i] is out of
    range. *)
Fixpoint update {A} (i : nat) (x : A) (l : list A) : list A :=
  match l, i with
  | [], _ => []
  | _ :: l', O => x :: l'
  | y :: l', S i' => y :: update i' x l'
  end.

(** Call [i] takes its next atomic action. *)
Definition step (i : nat) (w : world) : world :=
  match nth_error (calls w) i with
  | None => w
  | Some t =>
      match observe t with
      | RetF _ => w
      | TauF t' => mkWorld (client w) (update i t' (calls w)) (closes w) (panicked w)
      | VisF e k =>
          match perform e (client w) with
          | Some (x, l') =>
              mkWorld l' (update i (k x) (calls w))
                (if is_close_chan e then S (closes w) else closes w)
                (panicked w)
          | None => mkWorld (client w) (calls w) (closes w) true
          end
      end
  end.

(** A schedule names, action by action, the call that moves. *)
Definition run_schedule (sched : list nat) (w : world) : world :=
  fold_left (fun w i => step i w) sched w.

(** What a call returned, if it has. *)
Definition returned (t : itree sessionE (option error)) : option (option error) :=
  match observe t with
  | RetF r => Some r
  | _ => None
  end.

(** [n] calls of [Close] started on a client. *)
Definition closing (l : Client) (n : nat) : world :=
  mkWorld l (repeat Close n) 0 false.

(* ------------------------------------------------------------------ *)
(** ** Composition of runs *)

(** The run of [t] followed by the run [k] of what comes after it. *)
Definition and_then {R S} (r : run_result R)
    (k : R -> nat -> list reply -> run_result S) : run_result S :=
  match out r with
  | Returned x =>
      let r' := k x (fuel_left r) (rest r) in
      mkRun (trace r ++ trace r') (out r') (rest r') (fuel_left r')
  | Halted e => mkRun (trace r) (Halted e) (rest r) (fuel_left r)
  | OutOfFuel => mkRun (trace r) OutOfFuel (rest r) (fuel_left r)
  end.

(** A run with the events [tr] before it. *)
Definition prepend {R} (tr : list event) (r : run_result R) : run_result R :=
  mkRun (tr ++ trace r) (out r) (rest r) (fuel_left r).

(* ------------------------------------------------------------------ *)
(** ** Rounds of the probe that fail *)

(** The replies of probe rounds in which [Get] fails with the errors
    [errs] and the ticker fires. *)
Definition failed_rounds (errs : list error) : list reply :=
  flat_map (fun e => [RGet (Err e); RSelect Fired]) errs.

(** What one such round does: anything but "not found" is logged. *)
Definition round_events (key : string) (e : error) : list event :=
  Evt (Get key) (Err e)
  :: (if IsNotFound e then [] else [Evt (Log (LogProbeUnexpected e)) tt])
  ++ [Evt SelectTick Fired].

(** What such rounds do, one after the other. *)
Definition rounds_events (key : string) (errs : list error) : list event :=
  flat_map (round_events key) errs.

(** The steps a failed round takes, the turn of the loop included. *)
Definition round_cost (e : error) : nat := if IsNotFound e then 3 else 4.

(** The steps such rounds take. *)
Fixpoint rounds_cost (errs : list error) : nat :=
  match errs with
  | [] => O
  | e :: errs' => (round_cost e + rounds_cost errs')%nat
  end.

(** What a probe does that fails for [errs] and then reads [resp]. *)
Definition probe_events (key : string) (retry : time.Duration)
    (errs : list error) (resp : Response) : list event :=
  Evt (NewTicker retry) tt
  :: rounds_events key errs
  ++ [Evt (Get key) (Ok resp); Evt TickerStop tt].

(** What [resetWatch] does around such a probe. *)
Definition reset_events (key : string) (retry : time.Duration)
    (errs : list error) (resp : Response) : list event :=
  probe_events key retry errs resp
  ++ [Evt (Log (LogGotCurrent key (Value (RNode resp)))) tt;
      Evt (Log (LogResetAt key (ModifiedIndex (RNode resp)))) tt].

(** What [resetWatch] does around a probe that fails for [errs], fails
    with [e], and has [l.closeC] chosen in the wait after it. *)
Definition closed_reset_events (key : string) (retry : time.Duration)
    (errs : list error) (e : error) : list event :=
  Evt (NewTicker retry) tt
  :: rounds_events key errs
  ++ Evt (Get key) (Err e)
  :: (if IsNotFound e then [] else [Evt (Log (LogProbeUnexpected e)) tt])
  ++ [Evt SelectTick Closed; Evt (Log LogProbeClose) tt;
      Evt TickerStop tt; Evt (Log (LogResetClosing key)) tt].

(** The variables after [resetWatch] read [resp]. *)
Definition reset_vars (key : string) (resp : Response) (v : watch_vars)
  : watch_vars :=
  {| watcher := Some {| WatchKey := key;
                        AfterIndex := ModifiedIndex (RNode resp) |};
     re := Some resp;
     err := None;
     backoff := backoff v |}.

(** The variables after [watcher.Next] failed with [e] and the backoff
    was asked for its delay. *)
Definition failed_vars (e : error) (v : watch_vars) : watch_vars :=
  {| watcher := watcher v;
     re := None;
     err := Some e;
     backoff := snd (Backoff.Delay (backoff v)) |}.

(** The backoff of the watcher on an error: from the second try on it
    logs and sleeps the delay. *)
Definition backoff_events (v : watch_vars) : list event :=
  let d := Backoff.Delay (backoff v) in
  if 1 <? Backoff.Tries (snd d)
  then [Evt (Log (LogBackingOff (fst d))) tt; Evt (Sleep (fst d)) tt]
  else [].

(** The steps that takes. *)
Definition backoff_cost (v : watch_vars) : nat :=
  if 1 <? Backoff.Tries (snd (Backoff.Delay (backoff v))) then 2 else 0.

(** The errors of [watcher.Next] that fall through to the last branch:
    not [context.Canceled], not a cluster error, not "index cleared". *)
Definition unknown (e : error) : bool :=
  match e with
  | ContextCanceled => false
  | ClusterError _ => false
  | ClientError code => negb (code =? ErrorCodeEventIndexCleared)
  | _ => true
  end.

(** The replies of [watcher.Next] failing with [es], one after the other. *)
Definition failures (es : list error) : list reply :=
  map (fun e => RNext (Err e)) es.

(** The variables after such failures. *)
Definition storm_vars (es : list error) (v : watch_vars) : watch_vars :=
  fold_left (fun v e => failed_vars e v) es v.

(** The options [elect] passes when it creates the key, and when it
    extends the lease it read as [resp]. *)
Definition create_options (term : time.Duration) : SetOptions :=
  {| PrevValue := ""; PrevIndex := 0; PrevExistOpt := PrevNoExist; TTL := term |}.

Definition extend_options (value : string) (term : time.Duration)
    (resp : Response) : SetOptions :=
  {| PrevValue := value; PrevIndex := ModifiedIndex (RNode resp);
     PrevExistOpt := PrevIgnore; TTL := term |}.

(** A write is guarded when it is the create-if-absent of the voter, or
    its compare-and-swap on its own value and on the index of a response
    read before. *)
Definition guarded_write (key value : string) (term : time.Duration)
    (observed : list result) (w : string * string * SetOptions) : Prop :=
  w = (key, value, create_options term)
  \/ exists resp,
       In (Ok resp) observed /\ w = (key, value, extend_options value term resp).

(** The contract of a store for conditional writes: [accepts o n] tells
    whether a write with options [o] goes through on a key that holds the
    node [n].  A create-if-absent does not, and neither does a
    compare-and-swap on another value. *)
Definition conditional_store (accepts : SetOptions -> Node -> bool) : Prop :=
  (forall o n, PrevExistOpt o = PrevNoExist -> accepts o n = false)
  /\ (forall o n, PrevValue o <> "" -> Value n <> PrevValue o ->
                  accepts o n = false).

(** The check of etcd: a zero [PrevValue] or [PrevIndex] is no condition. *)
Definition etcd_accepts (o : SetOptions) (n : Node) : bool :=
  match PrevExistOpt o with
  | PrevNoExist => false
  | _ =>
      ((PrevValue o =? "")%string || (Value n =? PrevValue o)%string)
      && ((PrevIndex o =? 0) || (ModifiedIndex n =? PrevIndex o))
  end.

(* ------------------------------------------------------------------ *)
(** ** Calls of [Close], phase by phase *)

(** How far a call of [Close] has come: not started, past a swap that
    failed, past the swap that succeeded, past [close(l.closeC)]. *)
Inductive phase : Type := Fresh | Lost | Won | Done.

(** The rest of a call of [Close] at each phase. *)
Definition call_at (p : phase) : itree sessionE (option error) :=
  match p with
  | Fresh => Close
  | Lost =>
      ITree.bind (Ret false)
        (fun swapped : bool =>
           if negb swapped then Ret None
           else ITree.trigger CloseCloseC;; Ret None)
  | Won =>
      ITree.bind (Ret true)
        (fun swapped : bool =>
           if negb swapped then Ret None
           else ITree.trigger CloseCloseC;; Ret None)
  | Done => ITree.bind (Ret tt) (fun _ : unit => Ret (@None error))
  end.

(** A world whose calls are given by their phases. *)
Record pworld : Type := mkPWorld {
  pclient : Client;
  phases : list phase;
  pcloses : nat;
  ppanicked : bool
}.

Definition concrete (a : pworld) : world :=
  mkWorld (pclient a) (map call_at (phases a)) (pcloses a) (ppanicked a).

(** [step] on phases. *)
Definition pstep (i : nat) (a : pworld) : pworld :=
  match nth_error (phases a) i with
  | Some Fresh =>
      if closed (pclient a) =? 0
      then mkPWorld {| closed := 1; closeC_open := closeC_open (pclient a) |}
             (update i Won (phases a)) (pcloses a) (ppanicked a)
      else mkPWorld (pclient a) (update i Lost (phases a)) (pcloses a) (ppanicked a)
  | Some Won =>
      if closeC_open (pclient a)
      then mkPWorld {| closed := closed (pclient a); closeC_open := false |}
             (update i Done (phases a)) (S (pcloses a)) (ppanicked a)
      else mkPWorld (pclient a) (phases a) (pcloses a) true
  | _ => a
  end.

Definition prun (sched : list nat) (a : pworld) : pworld :=
  fold_left (fun a i => pstep i a) sched a.

Definition is_phase (p q : phase) : bool :=
  match p, q with
  | Fresh, Fresh | Lost, Lost | Won, Won | Done, Done => true
  | _, _ => false
  end.

Fixpoint count (p : phase) (ps : list phase) : nat :=
  match ps with
  | [] => O
  | q :: ps' => ((if is_phase p q then 1 else 0) + count p ps')%nat
  end.

(** What holds of the calls in flight on a client from [NewClient]: no
    panic, [closeC] closed as often as calls are [Done], and at most one
    call past a successful swap. *)
Definition settled (a : pworld) : Prop :=
  ppanicked a = false
  /\ pcloses a = count Done (phases a)
  /\ closeC_open (pclient a) = (count Done (phases a) =? 0)%nat
  /\ ((closed (pclient a) = 0
       /\ (count Won (phases a) + count Done (phases a) + count Lost (phases a) = 0)%nat)
      \/ (closed (pclient a) = 1
          /\ (count Won (phases a) + count Done (phases a) = 1)%nat)).

(** The atomic actions a call still has to take. *)
Definition todo (p : phase) : nat :=
  match p with
  | Fresh => 2
  | Won => 1
  | Lost | Done => 0
  end.

Definition fresh_calls (l : Client) (n : nat) : pworld :=
  mkPWorld l (repeat Fresh n) 0 false.

(* ------------------------------------------------------------------ *)
(** ** Inputs of the examples *)

Definition master : string := "/role/master".

Definition term5s : time.Duration := 5 * time.Second.

(** The key held by ["A"] at index 5, expiring at second 9. *)
Definition leaseA : Response :=
  {| RNode := {| Value := "A"; ModifiedIndex := 5;
                 Expiration := Some (9 * time.Second) |} |}.

(** The key held by ["B"] at index 6. *)
Definition leaseB : Response :=
  {| RNode := {| Value := "B"; ModifiedIndex := 6;
                 Expiration := Some (12 * time.Second) |} |}.

(** The key set to the empty string at index 7. *)
Definition emptied : Response :=
  {| RNode := {| Value := ""; ModifiedIndex := 7; Expiration := None |} |}.

Definition notFound : error := ClientError ErrorCodeKeyNotFound.
Definition nodeExist : error := ClientError ErrorCodeNodeExist.
Definition indexCleared : error := ClientError ErrorCodeEventIndexCleared.
Definition boom : error := OtherError "boom".

(** The variables of a watcher that has read [leaseA]. *)
Definition watchingA : watch_vars := reset_vars master leaseA watch_init.

Definition watcherA : Watcher := {| WatchKey := master; AfterIndex := 5 |}.

(* ------------------------------------------------------------------ *)
(** ** Rules on the calls of a run *)

Section Rules.

Context {G : Type}.

(** A rule says, for the note [g] kept so far, whether the call [ev] may
    come next and what the note is after it. *)
Variable rule : G -> event -> G -> Prop.

(** The trace [tr] keeps to the rule from the note [g] to the note [g']. *)
Inductive follows : G -> list event -> G -> Prop :=
| follows_nil g : follows g [] g
| follows_cons g ev g1 tr g2 :
    rule g ev g1 -> follows g1 tr g2 -> follows g (ev :: tr) g2.

(** Every run of [t], cut off anywhere, keeps to the rule from [g], and
    when [t] returns [r] with the note [g'] then [Q r g']. *)
Definition obeys {R} (g : G) (t : itree leaderE R) (Q : R -> G -> Prop) : Prop :=
  forall fuel script,
    exists g',
      follows g (trace (run fuel t script)) g'
      /\ forall r, out (run fuel t script) = Returned r -> Q r g'.

End Rules.

(* ------------------------------------------------------------------ *)
(** ** The rule of a voter *)

(** The note is the reply of the last read that no write has followed.
    A voter reads its key only; it writes its key and value only, after a
    read and once: the create-if-absent when the read found no key, the
    compare-and-swap on its value and on the index read when the read
    found its own value.  It never watches, sleeps or sends. *)
Definition voter_rule (key value : string) (term : time.Duration)
    (last : option result) (ev : event) (last' : option result) : Prop :=
  match ev with
  | Evt (Get k) r => k = key /\ last' = Some r
  | Evt (SetKey k v o) _ =>
      k = key /\ v = value /\ last' = None
      /\ match last with
         | Some (Err e) => IsNotFound e = true /\ o = create_options term
         | Some (Ok resp) =>
             Value (RNode resp) = value /\ o = extend_options value term resp
         | None => False
         end
  | Evt (Next _) _ => False
  | Evt (Sleep _) _ => False
  | Evt (SelectSend _) _ => False
  | Evt (NewTicker d) _ => d = time.div term 5 /\ last' = last
  | _ => last' = last
  end.

(* ------------------------------------------------------------------ *)
(** ** The life of a ticker *)

(** Where a goroutine is with its ticker: not made yet, made, the close
    of [l.closeC] seen, stopped. *)
Variant stage : Type := Before | Ticking | Closing | Stopped.

(** One ticker of the given period is made; the [select] over it comes
    while it ticks; it is stopped once: after the close was seen, or,
    where [early] allows it, while it ticks; the store and the clock are
    not called once the close was seen, and nothing is logged after the
    stop. *)
Definition ticker_rule (period : time.Duration) (early : bool)
    (g : stage) (ev : event) (g' : stage) : Prop :=
  match ev with
  | Evt (NewTicker d) _ => g = Before /\ d = period /\ g' = Ticking
  | Evt SelectTick c =>
      g = Ticking
      /\ g' = match c with Fired => Ticking | Closed => Closing end
  | Evt TickerStop _ =>
      (g = Closing \/ (early = true /\ g = Ticking)) /\ g' = Stopped
  | Evt (Log _) _ => g <> Stopped /\ g' = g
  | Evt (Get _) _ => (g = Before \/ g = Ticking) /\ g' = g
  | Evt (SetKey _ _ _) _ => (g = Before \/ g = Ticking) /\ g' = g
  | Evt UtcNow _ => (g = Before \/ g = Ticking) /\ g' = g
  | _ => False
  end.

(** The life of the ticker of the voter goroutine: one ticker, stopped
    after the close and not before, but for a panic; the [Stop] a panic
    runs comes while the ticker ticks, and no call comes after it.  The
    note [None] is for a goroutine that panicked so. *)
Definition voter_life (period : time.Duration)
    (g : option stage) (ev : event) (g' : option stage) : Prop :=
  match ev with
  | Evt TickerStop _ =>
      (g = Some Closing /\ g' = Some Stopped)
      \/ (g = Some Ticking /\ g' = None)
  | _ =>
      exists s s',
        g = Some s /\ g' = Some s' /\ ticker_rule period false s ev s'
  end.

(* ------------------------------------------------------------------ *)
(** ** The rule of a watcher *)

(** What a watcher holds of the store: the value of the last reply, until
    it is offered or another reply comes, and the index of the last
    snapshot. *)
Record watch_note : Type := mkNote {
  held : option string;
  mark : option Z
}.

(** A watcher reads its key only, and watches it only after the index of
    its last snapshot; the value it offers is the one of the reply just
    before, offered once; it never writes and never asks the time. *)
Definition watcher_rule (key : string)
    (g : watch_note) (ev : event) (g' : watch_note) : Prop :=
  match ev with
  | Evt (Get k) r =>
      k = key
      /\ g' = match r with
              | Ok resp => mkNote (Some (Value (RNode resp)))
                                  (Some (ModifiedIndex (RNode resp)))
              | Err _ => mkNote None (mark g)
              end
  | Evt (Next w) r =>
      WatchKey w = key /\ mark g = Some (AfterIndex w)
      /\ g' = mkNote match r with
                     | Ok resp => Some (Value (RNode resp))
                     | Err _ => None
                     end (mark g)
  | Evt (SelectSend v) _ => held g = Some v /\ g' = mkNote None (mark g)
  | Evt (SetKey _ _ _) _ => False
  | Evt UtcNow _ => False
  | _ => g' = g
  end.

(** The variables of the watcher goroutine agree with the note: the
    watcher, if there is one, is on the key after the index noted. *)
Definition watching (key : string) (v : watch_vars) (g : watch_note) : Prop :=
  match watcher v with
  | Some w => WatchKey w = key /\ mark g = Some (AfterIndex w)
  | None => True
  end.

(** The reply in [re], if there is one, is the one the note holds. *)
Definition holding (v : watch_vars) (g : watch_note) : Prop :=
  match re v with
  | Some r => held g = Some (Value (RNode r))
  | None => True
  end.

(** The values of the replies the store gave to the reads and to the
    watches of a run, in order. *)
Fixpoint replied (tr : list event) : list string :=
  match tr with
  | [] => []
  | Evt (Get _) (Ok r) :: tr' => Value (RNode r) :: replied tr'
  | Evt (Next _) (Ok r) :: tr' => Value (RNode r) :: replied tr'
  | _ :: tr' => replied tr'
  end.

(** [s] is [l] with some of its elements left out. *)
Inductive subseq {A : Type} : list A -> list A -> Prop :=
| subseq_nil l : subseq [] l
| subseq_skip x s l : subseq s l -> subseq s (x :: l)
| subseq_take x s l : subseq s l -> subseq (x :: s) (x :: l).

(** With the value held, if any, in front. *)
Definition with_held (h : option string) (l : list string) : list string :=
  match h with
  | Some v => v :: l
  | None => l
  end.

(** The tickers a run made. *)
Fixpoint tickers (tr : list event) : list time.Duration :=
  match tr with
  | [] => []
  | Evt (NewTicker d) _ :: tr' => d :: tickers tr'
  | _ :: tr' => tickers tr'
  end.

(** The errors of [watcher.Next] on which the goroutine returns:
    [context.Canceled], or a cluster error whose first error is it. *)
Definition canceled (e : error) : bool :=
  match e with
  | ContextCanceled => true
  | ClusterError (ContextCanceled :: _) => true
  | _ => false
  end.

(** A read is pending when no write has followed it. *)
Definition pending (last : option result) : nat :=
  match last with
  | Some _ => 1
  | None => 0
  end.

(** Whether the ticker is still to be made. *)
Definition unmade (g : stage) : nat :=
  match g with
  | Before => 1
  | _ => 0
  end.

(** The calls that tell a watcher of the close: a cancelled
    [watcher.Next], and a send that [l.closeC] won. *)
Definition close_event (ev : event) : bool :=
  match ev with
  | Evt (Next _) (Err e) => canceled e
  | Evt (SelectSend _) Closed => true
  | _ => false
  end.

(** The log and the sleep of the backoff. *)
Definition quiet_event (ev : event) : bool :=
  match ev with
  | Evt (Log _) _ => true
  | Evt (Sleep _) _ => true
  | _ => false
  end.

(** Whether the last thing a watcher saw is a close: the note is set by
    a cancelled [watcher.Next] and by a send that [l.closeC] won, kept
    by the log and by the sleep of the backoff, and dropped by any other
    call. *)
Definition closing_rule (g : bool) (ev : event) (g' : bool) : Prop :=
  match ev with
  | Evt (Next _) r =>
      g' = match r with Err e => canceled e | Ok _ => false end
  | Evt (SelectSend _) c =>
      g' = match c with Closed => true | Fired => false end
  | Evt (Log _) _ => g' = g
  | Evt (Sleep _) _ => g' = g
  | _ => g' = false
  end.

(* ------------------------------------------------------------------ *)
(** ** [AddWatchCallback] *)

(** What a [select] of the callback goroutine receives: a value from
    [valuesC], or the close of [l.closeC]. *)
Inductive received : Type :=
| FromValuesC (val : string)
| FromCloseC.

(** The [for]/[select] loop of the callback goroutine, with [prev] as it
    stands, over what its selects receive in turn: the calls
    [fn(key, prev, val)] it makes, and whether it returned.  With nothing
    more to receive it waits in the [select]. *)
Fixpoint callback_loop (key prev : string) (rs : list received)
  : list (string * string * string) * bool :=
  match rs with
  | [] => ([], false)
  | FromCloseC :: _ => ([], true)
  | FromValuesC val :: rs' =>
      let (later, done) := callback_loop key val rs' in
      ((key, prev, val) :: later, done)
  end.

(** The goroutine [AddWatchCallback] starts.  [valuesC] is the channel it
    hands to [AddWatch] and is not buffered: the values it receives are
    the ones the watcher goroutine had taken from it, in a run of that
    goroutine against [script]; [closing] tells whether the close of
    [l.closeC] is received after them.  [prev] starts as the zero
    string. *)
Definition AddWatchCallback (key : string) (retry : time.Duration)
    (fuel : nat) (script : list reply) (closing : bool)
  : list (string * string * string) * bool :=
  callback_loop key ""
    (map FromValuesC (sends (trace (run fuel (AddWatch key retry) script)))
     ++ if closing then [FromCloseC] else []).

(** The values received before the first close. *)
Fixpoint taken (rs : list received) : list string :=
  match rs with
  | [] => []
  | FromCloseC :: _ => []
  | FromValuesC val :: rs' => val :: taken rs'
  end.

(** Whether a close is received. *)
Fixpoint sees_close (rs : list received) : bool :=
  match rs with
  | [] => false
  | FromCloseC :: _ => true
  | FromValuesC _ :: rs' => sees_close rs'
  end.

(** The calls of a callback on [key] for the values [vals] in turn, the
    previous value being [prev] at first. *)
Definition chain (key prev : string) (vals : list string)
  : list (string * string * string) :=
  map (fun pv => (key, fst pv, snd pv)) (combine (prev :: vals) vals).

(* ------------------------------------------------------------------ *)
(** ** The user cgroup of a process (package [box]) *)

Module strings.

Import Stdlib.Strings.Ascii.

(** [strings.Split(s, sep)] for a separator of one byte: the substrings
    of [s] between the separators, one more than there are separators. *)
Fixpoint Split (s : string) (sep : ascii) : list string :=
  match s with
  | EmptyString => [EmptyString]
  | String c s' =>
      if Ascii.eqb c sep then EmptyString :: Split s' sep
      else match Split s' sep with
           | h :: t => String c h :: t
           | [] => [String c EmptyString]
           end
  end.

(** [strings.HasPrefix(s, prefix)]. *)
Definition HasPrefix (s prefix : string) : bool := String.prefix prefix s.

(** [strings.Contains(s, c)] for one byte. *)
Fixpoint Contains (s : string) (c : ascii) : bool :=
  match s with
  | EmptyString => false
  | String a s' => Ascii.eqb a c || Contains s' c
  end.

(** The byte ["/"]. *)
Definition slash : ascii := "/"%char.

End strings.

(** The slice expression [l[n:]]: it panics when [n] is beyond the
    length of [l]. *)
Definition slice_from {A : Type} (n : nat) (l : list A) : option (list A) :=
  if (n <=? List.length l)%nat then Some (skipn n l) else None.

(** How [setProcessUserCgroupImpl] gets from the cgroup path of the cpu
    controller to the elements it joins into [userPath]: it refuses a
    path that is not under the mount point, splits the path at the
    slashes and takes [dirs[5:]]. *)
Inductive user_dirs : Type :=
| BadParameter (cgroupPath : string)
| SlicePanic
| UserDirs (dirs : list string).

Definition userCgroupDirs (cgroupPath : string) : user_dirs :=
  if negb (strings.HasPrefix cgroupPath "/sys/fs/cgroup/")
  then BadParameter cgroupPath
  else
    match slice_from 5 (strings.Split cgroupPath strings.slash) with
    | None => SlicePanic
    | Some dirs => UserDirs dirs
    end.

(* ================================================================== *)
(** * Runs *)

Lemma run_result_eta {R} (r : run_result R) : mkRun (trace r) (out r) (rest r) (fuel_left r) = r.
Proof. destruct r; reflexivity. Qed.

(** A run looks at a program through [observe] only. *)
Lemma run_observe {R} (t t' : itree leaderE R) fuel script :
  observe t = observe t' -> run fuel t script = run fuel t' script.
Proof. intros H. destruct fuel; cbn [run]; rewrite H; reflexivity. Qed.

Lemma run_ret {R} (r : R) fuel script : run fuel (Ret r) script = mkRun [] (Returned r) script fuel.
Proof. destruct fuel; reflexivity. Qed.

Lemma run_tau {R} (t : itree leaderE R) fuel script : run (S fuel) (Tau t) script = run fuel t script.
Proof. reflexivity. Qed.

(** The run of a bind is the run of its first part, then of the rest. *)
Lemma run_bind {R S} (k : R -> itree leaderE S) fuel :
  forall (t : itree leaderE R) script,
    run fuel (ITree.bind t k) script
    = and_then (run fuel t script) (fun x f s => run f (k x) s).
Proof.
  induction fuel as [|f IH]; intros t script.
  - destruct (observe t) as [r|t'|X e h] eqn:Ht.
    + rewrite (run_observe (ITree.bind t k) (k r)) by (rewrite observe_bind, Ht; reflexivity).
      rewrite (run_observe t (Ret r)) by exact Ht. rewrite run_ret.
      unfold and_then; cbn. symmetry; apply run_result_eta.
    + cbn [run]. rewrite observe_bind, Ht. reflexivity.
    + cbn [run]. rewrite observe_bind, Ht. reflexivity.
  - destruct (observe t) as [r|t'|X e h] eqn:Ht.
    + rewrite (run_observe (ITree.bind t k) (k r)) by (rewrite observe_bind, Ht; reflexivity).
      rewrite (run_observe t (Ret r)) by exact Ht. rewrite run_ret.
      unfold and_then; cbn [out fuel_left rest trace app]. symmetry; apply run_result_eta.
    + cbn [run]. rewrite observe_bind, Ht. cbn. apply IH.
    + cbn [run]. rewrite observe_bind, Ht. cbn.
      destruct (answer e script) as [[x s']|]; [|reflexivity].
      rewrite IH. unfold and_then; cbn. destruct (out (run f (h x) s')); reflexivity.
Qed.

(** A loop runs as its body, followed after one step by the loop. *)
Lemma run_iter {I R} (body : I -> itree leaderE (I + R)) i fuel script :
  run fuel (ITree.iter body i) script
  = run fuel (ITree.bind (body i) (fun lr => match lr with inl l => Tau (ITree.iter body l) | inr r => Ret r end)) script.
Proof. apply run_observe. reflexivity. Qed.

Lemma run_trigger {X} (e : leaderE X) fuel script :
  run (S fuel) (ITree.trigger e) script
  = match answer e script with
    | Some (x, s') => mkRun [Evt e x] (Returned x) s' fuel
    | None => mkRun [] (Halted e) script fuel
    end.
Proof.
  cbn. destruct (answer e script) as [[x s']|]; [|reflexivity]. destruct fuel; reflexivity.
Qed.

Lemma prepend_nil {R} (r : run_result R) : prepend [] r = r.
Proof. destruct r; reflexivity. Qed.

Lemma prepend_prepend {R} a b (r : run_result R) : prepend a (prepend b r) = prepend (a ++ b) r.
Proof. unfold prepend; cbn. rewrite app_assoc. reflexivity. Qed.

Lemma and_then_prepend {R S} tr (r : run_result R) (k : R -> nat -> list reply -> run_result S) :
  and_then (prepend tr r) k = prepend tr (and_then r k).
Proof.
  unfold and_then, prepend; cbn. destruct (out r); cbn; try reflexivity.
  rewrite app_assoc. reflexivity.
Qed.

Lemma run_ret_bind {R S} (r : R) (k : R -> itree leaderE S) fuel script :
  run fuel (ITree.bind (Ret r) k) script = run fuel (k r) script.
Proof. apply run_observe. reflexivity. Qed.

Lemma run_bind_bind {R S T} (t : itree leaderE R) (k : R -> itree leaderE S) (h : S -> itree leaderE T) fuel script :
  run fuel (ITree.bind (ITree.bind t k) h) script = run fuel (ITree.bind t (fun x => ITree.bind (k x) h)) script.
Proof.
  rewrite !run_bind. unfold and_then. destruct (run fuel t script) as [tr o rs lf]; cbn.
  destruct o; cbn; try reflexivity.
  rewrite run_bind. unfold and_then. destruct (out (run lf (k r) rs)); cbn; try reflexivity.
  rewrite app_assoc. reflexivity.
Qed.


(** A call followed by the rest of the program, by its reply. *)
Lemma run_call {X R} (e : leaderE X) (k : X -> itree leaderE R) fuel script :
  run (S fuel) (ITree.bind (ITree.trigger e) k) script
  = match answer e script with
    | Some (x, s') => prepend [Evt e x] (run fuel (k x) s')
    | None => mkRun [] (Halted e) script fuel
    end.
Proof.
  rewrite run_bind, run_trigger.
  destruct (answer e script) as [[x s']|]; reflexivity.
Qed.

Lemma run_call_0 {X R} (e : leaderE X) (k : X -> itree leaderE R) script :
  run 0 (ITree.bind (ITree.trigger e) k) script = mkRun [] OutOfFuel script 0%nat.
Proof. reflexivity. Qed.

Lemma run_log {R} l (k : unit -> itree leaderE R) fuel script :
  run (S fuel) (ITree.bind (log l) k) script = prepend [Evt (Log l) tt] (run fuel (k tt) script).
Proof. unfold log. rewrite run_call. reflexivity. Qed.

Lemma run_log_0 {R} l (k : unit -> itree leaderE R) script :
  run 0 (ITree.bind (log l) k) script = mkRun [] OutOfFuel script 0%nat.
Proof. reflexivity. Qed.

Lemma run_nil_deref {R} fuel script :
  run (S fuel) (@nil_deref R) script = mkRun [] (Halted NilDeref) script fuel.
Proof. reflexivity. Qed.

(** A run does not gain steps. *)
Lemma run_fuel_left_le {R} fuel : forall (t : itree leaderE R) script,
  (fuel_left (run fuel t script) <= fuel)%nat.
Proof.
  induction fuel as [|f IH]; intros t script; cbn [run].
  - destruct (observe t); cbn; lia.
  - destruct (observe t) as [r|t'|X e k]; cbn [fuel_left].
    + lia.
    + specialize (IH t' script). lia.
    + destruct (answer e script) as [[x s']|]; cbn [fuel_left].
      * specialize (IH (k x) s'). lia.
      * lia.
Qed.

(** One step of a run whose next call, fuel and reply are known. *)
Ltac run_step :=
  first
    [ rewrite run_bind_bind
    | rewrite run_ret_bind
    | rewrite run_log
    | rewrite run_call; cbn [answer]
    | rewrite run_log_0
    | rewrite run_call_0
    | rewrite run_tau
    | rewrite run_ret
    | rewrite run_nil_deref ].

Ltac same_events :=
  cbn [app]; rewrite <- ?app_assoc; cbn [app]; rewrite <- ?app_assoc; reflexivity.

Ltac run_steps := repeat run_step; rewrite ?prepend_prepend; cbn [app].

(** A case split on what a run depends on next. *)
Ltac split_run :=
  match goal with
  | |- context [run ?f _ _] => is_var f; destruct f
  | |- context [match ?s with [] => _ | _ :: _ => _ end] => is_var s; destruct s
  | |- context [match ?r with RGet _ => _ | _ => _ end] => is_var r; destruct r
  | |- context [match ?r with Ok _ => _ | Err _ => _ end] => is_var r; destruct r
  | |- context [if ?b then _ else _] => destruct b eqn:?
  | |- context [match Expiration ?n with _ => _ end] => destruct (Expiration n) eqn:?
  end.

Lemma run_stop {R} (r : R) fuel script :
  run (S fuel) (ITree.trigger TickerStop;; Ret r) script
  = mkRun [Evt TickerStop tt] (Returned r) script fuel.
Proof. run_steps. reflexivity. Qed.

(** ** Traces *)

Lemma reads_app a b : reads (a ++ b) = reads a ++ reads b.
Proof.
  induction a as [|[X e x] a IH]; [reflexivity|].
  destruct e; cbn; rewrite IH; reflexivity.
Qed.

Lemma sends_app a b : sends (a ++ b) = sends a ++ sends b.
Proof.
  induction a as [|[X e x] a IH]; [reflexivity|].
  destruct e; try destruct x; cbn; rewrite ?IH; reflexivity.
Qed.

Lemma sleeps_app a b : sleeps (a ++ b) = sleeps a ++ sleeps b.
Proof.
  induction a as [|[X e x] a IH]; [reflexivity|].
  destruct e; cbn; rewrite IH; reflexivity.
Qed.

Lemma logged_app a b : logged (a ++ b) = logged a ++ logged b.
Proof.
  induction a as [|[X e x] a IH]; [reflexivity|].
  destruct e; cbn; rewrite IH; reflexivity.
Qed.

(* ================================================================== *)
(** * [AddVoter] and [elect] *)

(** C6.  [AddVoter] returns an error exactly when the value is empty or
    the term is under a second; with a value and a term of a second or
    more it returns nil and starts the voter, without a call to the
    store. *)
Theorem AddVoter_error_iff key value term :
  (fst (AddVoter key value term) <> None <-> value = "" \/ term < time.Second)
  /\ (value <> "" -> time.Second <= term ->
      AddVoter key value term = (None, Some (voter key value term))).
Proof.
  unfold AddVoter.
  destruct (String.eqb_spec value "") as [Hv|Hv];
    destruct (Z.ltb_spec term time.Second) as [Ht|Ht]; cbn [fst].
  - split; [split; [auto | discriminate] | contradiction].
  - split; [split; [auto | discriminate] | contradiction].
  - split; [split; [auto | discriminate] | lia].
  - split; [split; [intros H; now elim H | intros [H|H]; [contradiction | lia]] | reflexivity].
Qed.

Lemma AddVoter_error_iff_witness :
  "A" <> "" /\ time.Second <= term5s
  /\ AddVoter master "A" term5s = (None, Some (voter master "A" term5s)).
Proof.
  assert (H1 : "A" <> "") by discriminate.
  assert (H2 : time.Second <= term5s) by (vm_compute; discriminate).
  split; [exact H1|]. split; [exact H2|].
  exact (proj2 (AddVoter_error_iff master "A" term5s) H1 H2).
Defined.

Ltac elect_cases :=
  unfold elect, elect_under;
  repeat (run_steps;
          cbn [trace out rest prepend app writes reads]; try split_run).

Lemma elect_writes_guarded key value term fuel script :
  Forall (guarded_write key value term
            (reads (trace (run fuel (elect key value term) script))))
    (writes (trace (run fuel (elect key value term) script))).
Proof.
  elect_cases; cbn; repeat (apply Forall_cons || apply Forall_nil).
  all: unfold guarded_write.
  all: first [ left; reflexivity
             | right; eexists; split; [left; reflexivity | reflexivity] ].
Qed.

Lemma elect_other_value key value term fuel resp script :
  Value (RNode resp) <> value ->
  writes (trace (run fuel (elect key value term) (RGet (Ok resp) :: script))) = []
  /\ ((3 <= fuel)%nat ->
      out (run fuel (elect key value term) (RGet (Ok resp) :: script)) = Returned None).
Proof.
  intros Hv. apply String.eqb_neq in Hv.
  unfold elect, elect_under.
  do 3 (try destruct fuel as [|fuel]); run_steps; try rewrite run_log_0; try rewrite run_call_0; try rewrite Hv; cbn [negb]; 
   run_steps; try rewrite run_log_0; try rewrite run_call_0; cbn; (split; [reflexivity | intros; (lia || reflexivity)]).
Qed.

Lemma etcd_accepts_conditional : conditional_store etcd_accepts.
Proof.
  split; intros o n H.
  - unfold etcd_accepts. rewrite H. reflexivity.
  - intros Hv. unfold etcd_accepts.
    apply String.eqb_neq in H. apply String.eqb_neq in Hv. rewrite H, Hv.
    destruct (PrevExistOpt o); reflexivity.
Qed.

(** C2.  In a run of [elect]: every write is to the voter's key, of the
    voter's value, with the term as TTL, and is either a create-if-absent
    or a compare-and-swap on the voter's value and on the [ModifiedIndex]
    of a response read before; when the key is read with another value
    there is no write; so on a store that honours these conditions no
    write of a voter goes through on a key that holds another value. *)
Theorem elect_never_overwrites (key value : string) (term : time.Duration)
    (fuel : nat) (script : list reply) :
  let r := run fuel (elect key value term) script in
  Forall (guarded_write key value term (reads (trace r))) (writes (trace r))
  /\ (forall resp script',
        script = RGet (Ok resp) :: script' ->
        Value (RNode resp) <> value ->
        writes (trace r) = [])
  /\ (forall accepts,
        value <> "" ->
        conditional_store accepts ->
        forall w n, In w (writes (trace r)) -> Value n <> value ->
                    accepts (snd w) n = false).
Proof.
  cbv zeta. pose proof (elect_writes_guarded key value term fuel script) as Hg.
  split; [exact Hg|]. split.
  - intros resp script' -> Hv. apply (@elect_other_value key value term fuel resp script' Hv).
  - intros accepts Hne [Hcreate Hcas] w n Hin Hn.
    rewrite Forall_forall in Hg. destruct (Hg w Hin) as [->|(resp & _ & ->)].
    + apply Hcreate. reflexivity.
    + apply Hcas; assumption.
Qed.

Lemma elect_never_overwrites_witness :
  Value (RNode leaseB) <> "A" /\ "A" <> ""
  /\ writes (trace (run 10 (elect master "A" term5s) [RGet (Ok leaseB)])) = []
  /\ (forall w n,
        In w (writes (trace (run 10 (elect master "A" term5s)
                               [RGet (Err notFound); RSet (Ok leaseA)]))) ->
        Value n <> "A" -> etcd_accepts (snd w) n = false).
Proof.
  assert (H1 : Value (RNode leaseB) <> "A") by discriminate.
  assert (H2 : "A" <> "") by discriminate.
  split; [exact H1|]. split; [exact H2|]. split.
  - exact (proj1 (proj2 (elect_never_overwrites master "A" term5s 10
                           [RGet (Ok leaseB)])) leaseB [] eq_refl H1).
  - exact (proj2 (proj2 (elect_never_overwrites master "A" term5s 10
                           [RGet (Err notFound); RSet (Ok leaseA)]))
             etcd_accepts H2 etcd_accepts_conditional).
Defined.

Lemma div2_bounds term : time.is_Duration term -> - 2 ^ 62 <= time.div term 2 <= 2 ^ 62.
Proof.
  unfold time.is_Duration, time.minDuration, time.maxDuration, time.div. intros [Hl Hu].
  split.
  - change (- 2 ^ 62) with (Z.quot (- 2 ^ 63) 2). apply Z.quot_le_mono; lia.
  - transitivity (Z.quot (2 ^ 63 - 1) 2); [apply Z.quot_le_mono; lia | vm_compute; discriminate].
Qed.

Lemma fresh_lease term expiration now :
  time.is_Duration term -> time.div term 2 < expiration - now ->
  (time.div term 2 <? time.Sub expiration now) = true.
Proof.
  intros Ht H. pose proof (div2_bounds Ht) as Hb.
  apply Z.ltb_lt. unfold time.Sub, time.minDuration, time.maxDuration in *.
  destruct (Z.ltb_spec (expiration - now) (- 2 ^ 63)); [lia|].
  destruct (Z.ltb_spec (2 ^ 63 - 1) (expiration - now)); lia.
Qed.

(** C7.  When [elect] reads its own value with an expiration more than
    [term/2] after the clock's now, it writes nothing and returns nil. *)
Theorem elect_fresh_lease_no_write (key value : string) (term : time.Duration)
    (resp : Response) (expiration now : time.Time) (fuel : nat) (script : list reply) :
  time.is_Duration term ->
  Value (RNode resp) = value ->
  Expiration (RNode resp) = Some expiration ->
  time.div term 2 < expiration - now ->
  let r := run fuel (elect key value term) (RGet (Ok resp) :: RNow now :: script) in
  writes (trace r) = []
  /\ ((3 <= fuel)%nat -> out r = Returned None /\ rest r = script).
Proof.
  intros Ht Hv He Hlt. cbv zeta.
  pose proof (fresh_lease _ _ Ht Hlt) as Hf.
  apply String.eqb_eq in Hv.
  unfold elect, elect_under.
  do 3 (try destruct fuel as [|fuel]); run_steps; try rewrite run_log_0; try rewrite run_call_0; try rewrite Hv; cbn [negb]; 
   run_steps; try rewrite run_log_0; try rewrite run_call_0; try rewrite He; try rewrite Hf; run_steps; cbn; (split; [reflexivity | intros; (lia || (split; reflexivity))]).
Qed.

Lemma elect_fresh_lease_no_write_witness :
  time.is_Duration term5s
  /\ Value (RNode leaseA) = "A"
  /\ Expiration (RNode leaseA) = Some (9 * time.Second)
  /\ time.div term5s 2 < 9 * time.Second - 1 * time.Second
  /\ writes (trace (run 10 (elect master "A" term5s)
                      [RGet (Ok leaseA); RNow (1 * time.Second)])) = []
  /\ out (run 10 (elect master "A" term5s)
            [RGet (Ok leaseA); RNow (1 * time.Second)]) = Returned None.
Proof.
  assert (H1 : time.is_Duration term5s) by (split; vm_compute; discriminate).
  assert (H2 : time.div term5s 2 < 9 * time.Second - 1 * time.Second)
    by (vm_compute; reflexivity).
  split; [exact H1|]. split; [reflexivity|]. split; [reflexivity|].
  split; [exact H2|].
  pose proof (@elect_fresh_lease_no_write master "A" term5s leaseA
                (9 * time.Second) (1 * time.Second) 10 [] H1 eq_refl eq_refl H2)
    as [Hw Hr].
  split; [exact Hw|].
  exact (proj1 (Hr ltac:(lia))).
Defined.

(* ================================================================== *)
(** * [getFirstValue] *)

Lemma getFirstValue_loop_eq key fuel script :
  run fuel (getFirstValue_loop key) script
  = run fuel (lr <- getFirstValue_step key tt;;
              match lr with
              | inl l => Tau (ITree.iter (getFirstValue_step key) l)
              | inr r => Ret r
              end) script.
Proof. unfold getFirstValue_loop. apply run_iter. Qed.

(** A round of the probe that fails and is followed by a tick. *)
Lemma probe_round key e fuel script :
  run (round_cost e + fuel) (getFirstValue_loop key)
      (RGet (Err e) :: RSelect Fired :: script)
  = prepend (round_events key e) (run fuel (getFirstValue_loop key) script).
Proof.
  rewrite getFirstValue_loop_eq. unfold getFirstValue_step, round_cost, round_events.
  destruct (IsNotFound e) eqn:He; cbn [negb Nat.add app]; run_steps;
    rewrite He; cbn [negb]; run_steps; reflexivity.
Qed.

Lemma probe_rounds key errs : forall fuel script,
  run (rounds_cost errs + fuel) (getFirstValue_loop key)
      (failed_rounds errs ++ script)
  = prepend (rounds_events key errs) (run fuel (getFirstValue_loop key) script).
Proof.
  induction errs as [|e errs IH]; intros fuel script.
  - cbn. symmetry. apply prepend_nil.
  - unfold rounds_events, failed_rounds in *. cbn [rounds_cost flat_map].
    rewrite <- !app_assoc. cbn [app].
    rewrite <- Nat.add_assoc, probe_round, IH, prepend_prepend. reflexivity.
Qed.

Lemma probe_found key resp fuel script :
  run fuel (getFirstValue_loop key) (RGet (Ok resp) :: script)
  = match fuel with
    | O => mkRun [] OutOfFuel (RGet (Ok resp) :: script) O
    | S f => mkRun [Evt (Get key) (Ok resp)] (Returned (Some resp, None)) script f
    end.
Proof.
  rewrite getFirstValue_loop_eq. unfold getFirstValue_step.
  destruct fuel; [reflexivity|]. run_steps. reflexivity.
Qed.

Lemma probe_closed key e fuel script :
  run (round_cost e + fuel) (getFirstValue_loop key)
      (RGet (Err e) :: RSelect Closed :: script)
  = mkRun (Evt (Get key) (Err e)
           :: (if IsNotFound e then [] else [Evt (Log (LogProbeUnexpected e)) tt])
           ++ [Evt SelectTick Closed; Evt (Log LogProbeClose) tt])
      (Returned (None, None)) script fuel.
Proof.
  rewrite getFirstValue_loop_eq. unfold getFirstValue_step, round_cost.
  destruct (IsNotFound e) eqn:He; cbn [negb Nat.add app]; run_steps;
    rewrite He; cbn [negb]; run_steps; reflexivity.
Qed.

Lemma getFirstValue_eq key retry fuel script :
  run (S fuel) (getFirstValue key retry) script
  = prepend [Evt (NewTicker retry) tt]
      (and_then (run fuel (getFirstValue_loop key) script)
         (fun r f s => run f (ITree.trigger TickerStop;; Ret r) s)).
Proof.
  unfold getFirstValue. rewrite run_call. cbn [answer]. rewrite run_bind. reflexivity.
Qed.

(** [getFirstValue] when [Get] succeeds after failed rounds. *)
Lemma getFirstValue_snapshot {R} key retry (k : _ -> itree leaderE R) errs resp fuel script :
  run (rounds_cost errs + 3 + fuel) (ITree.bind (getFirstValue key retry) k)
      (failed_rounds errs ++ RGet (Ok resp) :: script)
  = prepend (Evt (NewTicker retry) tt :: rounds_events key errs
             ++ [Evt (Get key) (Ok resp); Evt TickerStop tt])
      (run fuel (k (Some resp, None)) script).
Proof.
  replace (rounds_cost errs + 3 + fuel)%nat
    with (S (rounds_cost errs + (S (S fuel))))%nat by lia.
  rewrite run_bind, getFirstValue_eq, probe_rounds, probe_found.
  rewrite !and_then_prepend. unfold and_then at 2. cbn [out fuel_left rest trace].
  rewrite run_stop. unfold and_then, prepend. cbn.
  rewrite <- app_assoc. reflexivity.
Qed.

(** [getFirstValue] when [l.closeC] is chosen after failed rounds. *)
Lemma getFirstValue_closing {R} key retry (k : _ -> itree leaderE R) errs e fuel script :
  run (rounds_cost errs + round_cost e + 2 + fuel)
      (ITree.bind (getFirstValue key retry) k)
      (failed_rounds errs ++ RGet (Err e) :: RSelect Closed :: script)
  = prepend (Evt (NewTicker retry) tt :: rounds_events key errs
             ++ Evt (Get key) (Err e)
             :: (if IsNotFound e then [] else [Evt (Log (LogProbeUnexpected e)) tt])
             ++ [Evt SelectTick Closed; Evt (Log LogProbeClose) tt; Evt TickerStop tt])
      (run fuel (k (None, None)) script).
Proof.
  replace (rounds_cost errs + round_cost e + 2 + fuel)%nat
    with (S (rounds_cost errs + (round_cost e + S fuel)))%nat by lia.
  rewrite run_bind, getFirstValue_eq, probe_rounds, probe_closed.
  rewrite !and_then_prepend. unfold and_then at 2. cbn [out fuel_left rest trace].
  rewrite run_stop. unfold and_then, prepend. cbn.
  rewrite <- !app_assoc. cbn. rewrite <- !app_assoc. reflexivity.
Qed.

(** Every way one turn of the probe loop can end. *)
Lemma getFirstValue_step_cases key fuel script :
  match out (run fuel (getFirstValue_step key tt) script) with
  | Returned (inl _) =>
      exists e, reads (trace (run fuel (getFirstValue_step key tt) script)) = [Err e]
  | Returned (inr p) =>
      (exists resp, p = (Some resp, None)
         /\ reads (trace (run fuel (getFirstValue_step key tt) script)) = [Ok resp])
      \/ (p = (None, None)
          /\ exists e, reads (trace (run fuel (getFirstValue_step key tt) script)) = [Err e])
  | _ => True
  end.
Proof.
  unfold getFirstValue_step.
  repeat (run_steps; cbn [trace out rest prepend app reads];
          try match goal with
              | |- context [run ?f _ _] => is_var f; destruct f
              | |- context [match ?s with [] => _ | _ :: _ => _ end] => is_var s; destruct s
              | |- context [match ?r with RGet _ => _ | _ => _ end] => is_var r; destruct r
              | |- context [match ?r with Ok _ => _ | Err _ => _ end] => is_var r; destruct r
              | |- context [match ?r with Fired => _ | Closed => _ end] => is_var r; destruct r
              | |- context [if ?b then _ else _] => destruct b eqn:?
              end); cbn; eauto.
Qed.

(** Every way the probe loop can return. *)
Lemma probe_returns key : forall fuel script p,
  out (run fuel (getFirstValue_loop key) script) = Returned p ->
  exists errs,
    (p = (None, None)
     /\ exists e, reads (trace (run fuel (getFirstValue_loop key) script))
                  = map Err errs ++ [Err e])
    \/ (exists resp, p = (Some resp, None)
         /\ reads (trace (run fuel (getFirstValue_loop key) script))
            = map Err errs ++ [Ok resp]).
Proof.
  intros fuel. induction fuel as [fuel IH] using lt_wf_ind. intros script p.
  rewrite getFirstValue_loop_eq, run_bind.
  pose proof (getFirstValue_step_cases key fuel script) as Hc.
  pose proof (run_fuel_left_le fuel (getFirstValue_step key tt) script) as Hl.
  unfold and_then.
  destruct (run fuel (getFirstValue_step key tt) script) as [tr o rs lf].
  cbn [out trace rest fuel_left] in *.
  destruct o as [[[]|q]| |]; try discriminate.
  - destruct lf as [|lf]; [discriminate|]. rewrite run_tau.
    fold (getFirstValue_loop key). cbn [out trace].
    intros H. destruct Hc as [e He].
    destruct (IH lf ltac:(lia) rs p H) as [errs Hr].
    exists (e :: errs).
    rewrite reads_app, He. cbn [map app].
    destruct Hr as [[Hp [e0 Hr]]|[resp [Hp Hr]]]; rewrite Hr.
    + left. split; [exact Hp|]. exists e0. reflexivity.
    + right. exists resp. split; [exact Hp|]. reflexivity.
  - rewrite run_ret. cbn [out trace]. intros H; inversion H; subst q.
    rewrite app_nil_r. exists [].
    destruct Hc as [[resp [Hp Hr]]|[Hp [e Hr]]]; rewrite Hr.
    + right. exists resp. split; [exact Hp|reflexivity].
    + left. split; [exact Hp|]. exists e. reflexivity.
Qed.

Lemma getFirstValue_returns key retry fuel script p :
  out (run fuel (getFirstValue key retry) script) = Returned p ->
  exists errs,
    (p = (None, None)
     /\ exists e, reads (trace (run fuel (getFirstValue key retry) script))
                  = map Err errs ++ [Err e])
    \/ (exists resp, p = (Some resp, None)
         /\ reads (trace (run fuel (getFirstValue key retry) script))
            = map Err errs ++ [Ok resp]).
Proof.
  destruct fuel as [|fuel]; [discriminate|].
  rewrite getFirstValue_eq.
  pose proof (probe_returns key fuel script) as Hp.
  unfold and_then.
  destruct (run fuel (getFirstValue_loop key) script) as [tr o rs lf].
  cbn [out trace rest fuel_left prepend app] in *.
  destruct o as [q| |]; try discriminate.
  destruct lf as [|lf]; [discriminate|].
  rewrite run_stop. cbn [out trace reads]. intros H; inversion H; subst q.
  destruct (Hp p eq_refl) as [errs Hr]. exists errs.
  rewrite reads_app. cbn [reads]. rewrite app_nil_r. exact Hr.
Qed.



(* ================================================================== *)
(** * The voter goroutine *)

Lemma voter_loop_eq key value term fuel script :
  run fuel (voter_loop key value term) script
  = run fuel (lr <- voter_step key value term tt;;
              match lr with
              | inl l => Tau (ITree.iter (voter_step key value term) l)
              | inr r => Ret r
              end) script.
Proof. unfold voter_loop. apply run_iter. Qed.

(** C5, as the code has it.  "Not found" on the probe is followed by the
    next turn of the loop once the ticker fires, and nothing is logged.  A
    create-if-absent that fails, with "node exists" or any other error, is
    returned by [elect] as an error, wrapped; the voter goroutine logs it
    as a voter error and goes on to its next tick. *)
Theorem expected_outcomes (key value : string) (term : time.Duration) :
  (forall e script fuel,
     IsNotFound e = true ->
     run (3 + fuel) (getFirstValue_loop key)
       (RGet (Err e) :: RSelect Fired :: script)
     = prepend [Evt (Get key) (Err e); Evt SelectTick Fired]
         (run fuel (getFirstValue_loop key) script))
  /\ (forall e e' script fuel,
        IsNotFound e = true ->
        (4 <= fuel)%nat ->
        let r := run fuel (elect key value term)
                   (RGet (Err e) :: RSet (Err e') :: script) in
        out r = Returned (Some (Wrap e'))
        /\ writes (trace r) = [(key, value, create_options term)]
        /\ rest r = script)
  /\ (forall e e' script fuel,
        IsNotFound e = true ->
        run (7 + fuel) (voter_loop key value term)
          (RSelect Fired :: RGet (Err e) :: RSet (Err e') :: script)
        = prepend
            [Evt SelectTick Fired;
             Evt (Log (LogCandidateStart key value term)) tt;
             Evt (Get key) (Err e);
             Evt (Log (LogNotFoundElect key value)) tt;
             Evt (SetKey key value (create_options term)) (Err e');
             Evt (Log (LogVoterError (Wrap e'))) tt]
            (run fuel (voter_loop key value term) script)).
Proof.
  split; [|split].
  - intros e script fuel He.
    pose proof (probe_round key e fuel script) as H.
    unfold round_cost, round_events in H. rewrite He in H. exact H.
  - intros e e' script fuel He Hf. cbv zeta.
    do 4 (destruct fuel as [|fuel]; [lia|]).
    unfold elect, elect_under. run_steps. rewrite He. cbn [negb]. run_steps.
    cbn. repeat split.
  - intros e e' script fuel He.
    rewrite voter_loop_eq. unfold voter_step, elect_under, log_voter_error.
    cbn [Nat.add]. run_steps. rewrite He. cbn [negb]. run_steps.
    reflexivity.
Qed.

Lemma expected_outcomes_witness :
  IsNotFound notFound = true /\ (4 <= 10)%nat
  /\ out (run 10 (elect master "A" term5s)
            [RGet (Err notFound); RSet (Err nodeExist)])
     = Returned (Some (Wrap nodeExist)).
Proof.
  assert (H1 : IsNotFound notFound = true) by reflexivity.
  assert (H2 : (4 <= 10)%nat) by lia.
  split; [exact H1|]. split; [exact H2|].
  exact (proj1 (proj1 (proj2 (expected_outcomes master "A" term5s))
                  notFound nodeExist [] 10%nat H1 H2)).
Defined.

(** C5 as stated fails: with the key absent and the create answered by
    "node exists", [elect] returns that error, and the voter logs it. *)
Lemma elect_returns_node_exist_error :
  IsNotFound notFound = true
  /\ IsAlreadyExist nodeExist = true
  /\ out (run 10 (elect master "A" term5s)
            [RGet (Err notFound); RSet (Err nodeExist)])
     = Returned (Some (Wrap nodeExist))
  /\ logged (trace (run 20 (voter master "A" term5s)
                      [RGet (Err notFound); RSet (Err nodeExist)]))
     = [LogCandidateStart master "A" term5s;
        LogNotFoundElect master "A";
        LogVoterError (Wrap nodeExist)].
Proof. repeat split. Qed.

(* ================================================================== *)
(** * The watcher goroutine *)

Lemma watch_loop_eq key retry v fuel script :
  run fuel (watch_loop key retry v) script
  = run fuel (lr <- watch_step key retry v;;
              match lr with
              | inl v' => Tau (watch_loop key retry v')
              | inr r => Ret r
              end) script.
Proof. exact (run_iter (watch_step key retry) v fuel script). Qed.

Lemma resetWatch_snapshot {R} key retry v (k : _ -> itree leaderE R) errs resp fuel script :
  run (rounds_cost errs + 5 + fuel) (ITree.bind (resetWatch key retry v) k)
      (failed_rounds errs ++ RGet (Ok resp) :: script)
  = prepend (reset_events key retry errs resp)
      (run fuel (k (None, reset_vars key resp v)) script).
Proof.
  unfold resetWatch. rewrite run_bind_bind.
  replace (rounds_cost errs + 5 + fuel)%nat
    with (rounds_cost errs + 3 + S (S fuel))%nat by lia.
  rewrite getFirstValue_snapshot. cbn [fst snd set_re_err err re].
  run_steps. unfold reset_events, probe_events. cbn [app]. rewrite <- !app_assoc.
  reflexivity.
Qed.

Lemma resetWatch_closing {R} key retry v (k : _ -> itree leaderE R) errs e fuel script :
  run (rounds_cost errs + round_cost e + 3 + fuel)
      (ITree.bind (resetWatch key retry v) k)
      (failed_rounds errs ++ RGet (Err e) :: RSelect Closed :: script)
  = prepend (Evt (NewTicker retry) tt :: rounds_events key errs
             ++ Evt (Get key) (Err e)
             :: (if IsNotFound e then [] else [Evt (Log (LogProbeUnexpected e)) tt])
             ++ [Evt SelectTick Closed; Evt (Log LogProbeClose) tt;
                 Evt TickerStop tt; Evt (Log (LogResetClosing key)) tt])
      (run fuel (k (None, set_re_err v None None)) script).
Proof.
  unfold resetWatch. rewrite run_bind_bind.
  replace (rounds_cost errs + round_cost e + 3 + fuel)%nat
    with (rounds_cost errs + round_cost e + 2 + S fuel)%nat by lia.
  rewrite getFirstValue_closing. cbn [fst snd set_re_err err re].
  run_steps. f_equal. same_events.
Qed.

(** [resetWatch] returns no error: [getFirstValue] has none to give. *)
Lemma resetWatch_returns_nil key retry v fuel script ret v' :
  out (run fuel (resetWatch key retry v) script) = Returned (ret, v') ->
  ret = None.
Proof.
  unfold resetWatch. rewrite run_bind.
  pose proof (@getFirstValue_returns key retry fuel script) as Hp.
  unfold and_then.
  destruct (run fuel (getFirstValue key retry) script) as [tr o rs lf].
  cbn [out trace rest fuel_left] in *.
  destruct o as [p| |]; try discriminate.
  destruct (Hp p eq_refl) as [errs [[-> _]|[resp [-> _]]]];
    cbn [fst snd set_re_err err re].
  - destruct lf as [|lf]; unfold log; run_steps; cbn; [discriminate|].
    intros H; inversion H; reflexivity.
  - destruct lf as [|lf]; unfold log; run_steps; cbn; [discriminate|].
    destruct lf as [|lf]; run_steps; cbn; [discriminate|].
    intros H; inversion H; reflexivity.
Qed.

Lemma watch_step_error key retry v w e fuel script :
  watcher v = Some w ->
  run (backoff_cost v + 1 + fuel) (watch_step key retry v) (RNext (Err e) :: script)
  = prepend (Evt (Next w) (Err e) :: backoff_events v)
      (run fuel (on_error key retry e (failed_vars e v)) script).
Proof.
  intros Hw. unfold watch_step, backoff_cost, backoff_events. rewrite Hw.
  replace (set_backoff (set_re_err v None (Some e))
             (snd (Backoff.Delay (backoff (set_re_err v None (Some e))))))
    with (failed_vars e v) by reflexivity.
  cbn [backoff set_re_err failed_vars].
  destruct (1 <? Backoff.Tries (snd (Backoff.Delay (backoff v)))) eqn:Ht;
    cbn [Nat.add]; run_steps.
  - cbn [backoff set_backoff set_re_err]. rewrite Ht. run_steps. reflexivity.
  - cbn [backoff set_backoff set_re_err]. rewrite Ht. run_steps. reflexivity.
Qed.

(** A turn of the watcher loop in which [watcher.Next] fails, up to the
    choice of the branch. *)
Lemma watch_loop_error key retry v w e fuel script :
  watcher v = Some w ->
  run (backoff_cost v + 1 + fuel) (watch_loop key retry v) (RNext (Err e) :: script)
  = prepend (Evt (Next w) (Err e) :: backoff_events v)
      (run fuel (lr <- on_error key retry e (failed_vars e v);;
                 match lr with
                 | inl v' => Tau (watch_loop key retry v')
                 | inr r => Ret r
                 end) script).
Proof.
  intros Hw. rewrite watch_loop_eq, run_bind, (watch_step_error _ _ _ _ _ _ Hw).
  rewrite and_then_prepend, <- run_bind. reflexivity.
Qed.

Lemma on_error_cleared key retry v :
  on_error key retry (ClientError ErrorCodeEventIndexCleared) v
  = (log (LogWatchIndex (ClientError ErrorCodeEventIndexCleared));;
     p <- resetWatch key retry v;; after_reset p).
Proof. reflexivity. Qed.

Lemma on_error_unknown key retry e v :
  unknown e = true -> on_error key retry e v = unknown_error key retry e v.
Proof.
  destruct e; cbn; try discriminate; try reflexivity.
  destruct (Code =? ErrorCodeEventIndexCleared); [discriminate|reflexivity].
Qed.

Lemma failed_vars_tries e v :
  Backoff.Tries (backoff (failed_vars e v)) = Backoff.Tries (backoff v) + 1.
Proof. reflexivity. Qed.

Lemma backoff_events_sleeps v :
  sleeps (backoff_events v)
  = if 1 <? Backoff.Tries (snd (Backoff.Delay (backoff v)))
    then [fst (Backoff.Delay (backoff v))] else [].
Proof.
  unfold backoff_events.
  destruct (1 <? Backoff.Tries (snd (Backoff.Delay (backoff v)))); reflexivity.
Qed.

Lemma backoff_events_quiet v :
  reads (backoff_events v) = [] /\ sends (backoff_events v) = [].
Proof.
  unfold backoff_events.
  destruct (1 <? Backoff.Tries (snd (Backoff.Delay (backoff v)))); split; reflexivity.
Qed.

Lemma rounds_events_sends key errs : sends (rounds_events key errs) = [].
Proof.
  induction errs as [|e errs IH]; [reflexivity|].
  unfold rounds_events in *. cbn [flat_map]. rewrite sends_app, IH.
  unfold round_events. destruct (IsNotFound e); reflexivity.
Qed.

Lemma reset_events_sends key retry errs resp :
  sends (reset_events key retry errs resp) = [].
Proof.
  unfold reset_events, probe_events. rewrite sends_app. cbn [sends].
  rewrite sends_app, rounds_events_sends. reflexivity.
Qed.

Lemma reset_events_reads key retry errs resp :
  reads (reset_events key retry errs resp) = map Err errs ++ [Ok resp].
Proof.
  unfold reset_events, probe_events. rewrite reads_app. cbn [reads].
  rewrite reads_app. cbn [reads app]. rewrite app_nil_r. f_equal.
  induction errs as [|e errs IH]; [reflexivity|].
  unfold rounds_events in *. cbn [flat_map map]. rewrite reads_app, IH.
  unfold round_events. destruct (IsNotFound e); reflexivity.
Qed.

Lemma reset_events_sleeps key retry errs resp :
  sleeps (reset_events key retry errs resp) = [].
Proof.
  unfold reset_events, probe_events. rewrite sleeps_app. cbn [sleeps].
  rewrite sleeps_app. cbn [sleeps app]. rewrite !app_nil_r.
  induction errs as [|e errs IH]; [reflexivity|].
  unfold rounds_events in *. cbn [flat_map]. rewrite sleeps_app, IH.
  unfold round_events. destruct (IsNotFound e); reflexivity.
Qed.

Lemma storm_vars_tries es : forall v,
  Backoff.Tries (backoff (storm_vars es v))
  = Backoff.Tries (backoff v) + Z.of_nat (List.length es).
Proof.
  induction es as [|e es IH]; intros v; cbn [storm_vars fold_left List.length].
  - lia.
  - fold (storm_vars es (failed_vars e v)). rewrite IH, failed_vars_tries. lia.
Qed.

Lemma storm_vars_watcher es : forall v, watcher (storm_vars es v) = watcher v.
Proof.
  induction es as [|e es IH]; intros v; cbn [storm_vars fold_left]; [reflexivity|].
  fold (storm_vars es (failed_vars e v)). rewrite IH. reflexivity.
Qed.

(** An event with a value is logged and sent, and resets the backoff. *)
Lemma watch_loop_value key retry v w next fuel script :
  watcher v = Some w -> Value (RNode next) <> "" ->
  run (4 + fuel) (watch_loop key retry v) (RNext (Ok next) :: RSelect Fired :: script)
  = prepend [Evt (Next w) (Ok next);
             Evt (Log (LogGot key (Value (RNode next)))) tt;
             Evt (SelectSend (Value (RNode next))) Fired]
      (run fuel
         (watch_loop key retry
            (mkVars (Some w) (Some next) None (Backoff.Reset (backoff v))))
         script).
Proof.
  intros Hw Hv. apply String.eqb_neq in Hv.
  rewrite watch_loop_eq. unfold watch_step. rewrite Hw. cbn [Nat.add].
  run_steps. rewrite Hv. run_steps. unfold send_value. cbn [re set_backoff set_re_err].
  run_steps. unfold set_backoff, set_re_err. cbn [watcher re err backoff].
  rewrite Hw. reflexivity.
Qed.

(** An event with the empty value is logged and skipped. *)
Lemma watch_loop_empty key retry v w next fuel script :
  watcher v = Some w -> Value (RNode next) = "" ->
  run (3 + fuel) (watch_loop key retry v) (RNext (Ok next) :: script)
  = prepend [Evt (Next w) (Ok next); Evt (Log (LogSkipEmpty key)) tt]
      (run fuel
         (watch_loop key retry (mkVars (Some w) (Some next) None (backoff v)))
         script).
Proof.
  intros Hw Hv. apply String.eqb_eq in Hv.
  rewrite watch_loop_eq. unfold watch_step. rewrite Hw. cbn [Nat.add].
  run_steps. rewrite Hv. run_steps. unfold set_re_err. rewrite Hw. reflexivity.
Qed.

Lemma watch_loop_waiting key retry v w fuel :
  watcher v = Some w ->
  run (S fuel) (watch_loop key retry v) []
  = mkRun [] (Halted (Next w)) [] fuel.
Proof.
  intros Hw. rewrite watch_loop_eq. unfold watch_step. rewrite Hw.
  run_steps. reflexivity.
Qed.

(** [AddWatch] up to the loop, when the probe reads the key. *)
Lemma AddWatch_start key retry errs resp fuel script :
  run (rounds_cost errs + 5 + fuel) (AddWatch key retry)
    (failed_rounds errs ++ RGet (Ok resp) :: script)
  = prepend (reset_events key retry errs resp)
      (run fuel (watch_loop key retry (reset_vars key resp watch_init)) script).
Proof.
  unfold AddWatch. rewrite resetWatch_snapshot. reflexivity.
Qed.

(** ** After "index cleared" *)

Lemma index_cleared_run key retry v w errs resp fuel script :
  watcher v = Some w ->
  run (backoff_cost v + rounds_cost errs + 9 + fuel) (watch_loop key retry v)
    (RNext (Err (ClientError ErrorCodeEventIndexCleared))
     :: failed_rounds errs ++ RGet (Ok resp) :: RSelect Fired :: script)
  = prepend
      (Evt (Next w) (Err (ClientError ErrorCodeEventIndexCleared))
       :: backoff_events v
       ++ Evt (Log (LogWatchIndex (ClientError ErrorCodeEventIndexCleared))) tt
       :: reset_events key retry errs resp
       ++ [Evt (SelectSend (Value (RNode resp))) Fired])
      (run fuel
         (watch_loop key retry
            (reset_vars key resp
               (failed_vars (ClientError ErrorCodeEventIndexCleared) v)))
         script).
Proof.
  intros Hw.
  replace (backoff_cost v + rounds_cost errs + 9 + fuel)%nat
    with (backoff_cost v + 1 + S (rounds_cost errs + 5 + S (S fuel)))%nat by lia.
  rewrite (watch_loop_error _ _ _ _ _ _ Hw).
  rewrite on_error_cleared. run_steps.
  rewrite resetWatch_snapshot. unfold after_reset. cbn [fst snd].
  change (set_err (reset_vars key resp ?x) None) with (reset_vars key resp x).
  unfold send_value. cbn [re err reset_vars]. run_steps.
  f_equal. same_events.
Qed.

(** Closed while the probe of [resetWatch] waits, after "index cleared":
    [resetWatch] returns nil with [re] nil, and the [select] dereferences
    it. *)
Lemma index_cleared_closing_run key retry v w errs e fuel script :
  watcher v = Some w ->
  run (backoff_cost v + rounds_cost errs + round_cost e + 6 + fuel)
    (watch_loop key retry v)
    (RNext (Err (ClientError ErrorCodeEventIndexCleared))
     :: failed_rounds errs ++ RGet (Err e) :: RSelect Closed :: script)
  = mkRun
      (Evt (Next w) (Err (ClientError ErrorCodeEventIndexCleared))
       :: backoff_events v
       ++ Evt (Log (LogWatchIndex (ClientError ErrorCodeEventIndexCleared))) tt
       :: closed_reset_events key retry errs e)
      (Halted NilDeref) script fuel.
Proof.
  intros Hw.
  replace (backoff_cost v + rounds_cost errs + round_cost e + 6 + fuel)%nat
    with (backoff_cost v + 1 + S (rounds_cost errs + round_cost e + 3 + S fuel))%nat
    by lia.
  rewrite (watch_loop_error _ _ _ _ _ _ Hw).
  rewrite on_error_cleared. run_steps.
  rewrite resetWatch_closing. unfold after_reset, send_value.
  cbn [fst snd set_err set_re_err err re]. run_steps.
  rewrite run_bind, run_nil_deref. unfold and_then, prepend, closed_reset_events.
  cbn [trace out rest fuel_left]. rewrite app_nil_r. f_equal. same_events.
Qed.

(** C10.  When [watcher.Next] fails with "index cleared" and the probe of
    [resetWatch] then reads the key, after any failed rounds, the value
    read is what the [select] sends, whatever was sent before, and the
    loop goes on with the watch at the index read.  [resetWatch] returns
    no error on any way out, so the [continue] after it is never taken;
    when its probe ends without a response, closed in a wait, the turn
    goes on to the [select] with [re] nil and the goroutine panics there:
    nothing is sent and the loop does not go on. *)
Theorem index_cleared_snapshot_or_panic (key : string) (retry : time.Duration)
    (v : watch_vars) (w : Watcher) :
  watcher v = Some w ->
  let cleared := ClientError ErrorCodeEventIndexCleared in
  (forall errs resp script fuel,
     run (backoff_cost v + rounds_cost errs + 9 + fuel) (watch_loop key retry v)
       (RNext (Err cleared)
        :: failed_rounds errs ++ RGet (Ok resp) :: RSelect Fired :: script)
     = prepend
         (Evt (Next w) (Err cleared)
          :: backoff_events v
          ++ Evt (Log (LogWatchIndex cleared)) tt
          :: reset_events key retry errs resp
          ++ [Evt (SelectSend (Value (RNode resp))) Fired])
         (run fuel
            (watch_loop key retry (reset_vars key resp (failed_vars cleared v)))
            script))
  /\ (forall v' fuel script ret v'',
        out (run fuel (resetWatch key retry v') script) = Returned (ret, v'') ->
        ret = None)
  /\ (forall errs e script fuel,
        run (backoff_cost v + rounds_cost errs + round_cost e + 6 + fuel)
          (watch_loop key retry v)
          (RNext (Err cleared)
           :: failed_rounds errs ++ RGet (Err e) :: RSelect Closed :: script)
        = mkRun
            (Evt (Next w) (Err cleared)
             :: backoff_events v
             ++ Evt (Log (LogWatchIndex cleared)) tt
             :: closed_reset_events key retry errs e)
            (Halted NilDeref) script fuel).
Proof.
  intros Hw cleared. split; [|split].
  - intros errs resp script fuel. apply index_cleared_run. exact Hw.
  - intros v' fuel script ret v'' H.
    exact (@resetWatch_returns_nil key retry v' fuel script ret v'' H).
  - intros errs e script fuel. apply index_cleared_closing_run. exact Hw.
Qed.

Lemma index_cleared_snapshot_or_panic_witness :
  watcher watchingA = Some watcherA
  /\ out (run 20 (watch_loop master time.Second watchingA)
            [RNext (Err indexCleared); RGet (Err notFound); RSelect Closed])
     = Halted NilDeref
  /\ sends (trace (run 20 (watch_loop master time.Second watchingA)
                     [RNext (Err indexCleared); RGet (Err notFound);
                      RSelect Closed]))
     = []
  /\ sends (trace (run 20 (watch_loop master time.Second watchingA)
                     [RNext (Err indexCleared); RGet (Ok leaseA);
                      RSelect Fired]))
     = ["A"].
Proof.
  assert (H1 : watcher watchingA = Some watcherA) by reflexivity.
  split; [exact H1|]. split; [|split].
  - exact (f_equal (@out _)
             (proj2 (proj2 (@index_cleared_snapshot_or_panic master time.Second
                              watchingA watcherA H1))
                [] notFound [] 11%nat)).
  - exact (f_equal (fun r => sends (trace r))
             (proj2 (proj2 (@index_cleared_snapshot_or_panic master time.Second
                              watchingA watcherA H1))
                [] notFound [] 11%nat)).
  - exact (f_equal (fun r => sends (trace r))
             (proj1 (@index_cleared_snapshot_or_panic master time.Second
                       watchingA watcherA H1) [] leaseA [] 11%nat)).
Defined.

(** ** Errors of no known kind *)

(** An error of no known kind while the count of tries is at most ten. *)
Lemma unknown_quiet key retry v w e fuel script :
  watcher v = Some w -> unknown e = true ->
  Backoff.Tries (snd (Backoff.Delay (backoff v))) <= 10 ->
  run (backoff_cost v + 3 + fuel) (watch_loop key retry v) (RNext (Err e) :: script)
  = prepend (Evt (Next w) (Err e) :: backoff_events v
             ++ [Evt (Log (LogUnexpectedWatch e)) tt])
      (run fuel (watch_loop key retry (failed_vars e v)) script).
Proof.
  intros Hw Hu Ht.
  replace (backoff_cost v + 3 + fuel)%nat
    with (backoff_cost v + 1 + S (S fuel))%nat by lia.
  rewrite (watch_loop_error _ _ _ _ _ _ Hw), (on_error_unknown _ _ _ _ Hu).
  unfold unknown_error. cbn [failed_vars backoff].
  destruct (Z.ltb_spec 10 (Backoff.Tries (snd (Backoff.Delay (backoff v))))); [lia|].
  run_steps. f_equal.
Qed.

(** An error of no known kind once the count of tries is above ten. *)
Lemma unknown_reset key retry v w e errs resp fuel script :
  watcher v = Some w -> unknown e = true ->
  10 < Backoff.Tries (snd (Backoff.Delay (backoff v))) ->
  run (backoff_cost v + rounds_cost errs + 8 + fuel) (watch_loop key retry v)
      (RNext (Err e) :: failed_rounds errs ++ RGet (Ok resp) :: script)
  = prepend (Evt (Next w) (Err e) :: backoff_events v
             ++ Evt (Log (LogUnexpectedWatch e)) tt
             :: reset_events key retry errs resp)
      (run fuel (watch_loop key retry (reset_vars key resp (failed_vars e v))) script).
Proof.
  intros Hw Hu Ht.
  replace (backoff_cost v + rounds_cost errs + 8 + fuel)%nat
    with (backoff_cost v + 1 + S (rounds_cost errs + 5 + S fuel))%nat by lia.
  rewrite (watch_loop_error _ _ _ _ _ _ Hw), (on_error_unknown _ _ _ _ Hu).
  unfold unknown_error. cbn [failed_vars backoff].
  destruct (Z.ltb_spec 10 (Backoff.Tries (snd (Backoff.Delay (backoff v))))); [|lia].
  run_steps. rewrite resetWatch_snapshot. cbn [snd]. run_steps.
  f_equal. same_events.
Qed.

(** Errors of no known kind in a row, the count staying at most ten. *)
Lemma storm key retry w : forall es v,
  watcher v = Some w ->
  Forall (fun e => unknown e = true) es ->
  1 <= Backoff.Tries (backoff v) ->
  Backoff.Tries (backoff v) + Z.of_nat (List.length es) <= 10 ->
  exists n pre,
    reads pre = [] /\ sends pre = [] /\ List.length (sleeps pre) = List.length es
    /\ forall fuel script,
        run (n + fuel) (watch_loop key retry v) (failures es ++ script)
        = prepend pre (run fuel (watch_loop key retry (storm_vars es v)) script).
Proof.
  induction es as [|e es IH]; intros v Hw Hu H1 H10.
  - exists O, []. repeat split. intros. cbn. symmetry. apply prepend_nil.
  - inversion Hu as [|? ? He Hes]; subst.
    cbn [List.length] in H10.
    destruct (IH (failed_vars e v) Hw Hes) as (n & pre & Hr & Hs & Hsl & Hrun).
    { rewrite failed_vars_tries. lia. }
    { rewrite failed_vars_tries. lia. }
    exists (backoff_cost v + 3 + n)%nat.
    exists ((Evt (Next w) (Err e) :: backoff_events v
             ++ [Evt (Log (LogUnexpectedWatch e)) tt]) ++ pre).
    destruct (backoff_events_quiet v) as [Hbr Hbs].
    pose proof (backoff_events_sleeps v) as Hbsl.
    change (Backoff.Tries (snd (Backoff.Delay (backoff v))))
      with (Backoff.Tries (backoff v) + 1) in Hbsl.
    destruct (Z.ltb_spec 1 (Backoff.Tries (backoff v) + 1)); [|lia].
    repeat split.
    + rewrite reads_app. cbn [reads]. rewrite reads_app, Hbr, Hr. reflexivity.
    + rewrite sends_app. cbn [sends]. rewrite sends_app, Hbs, Hs. reflexivity.
    + rewrite sleeps_app. cbn [sleeps]. rewrite sleeps_app, Hbsl, length_app. cbn. lia.
    + intros fuel script. cbn [failures map app storm_vars fold_left].
      rewrite <- Nat.add_assoc, (unknown_quiet _ _ _ _ _ _ Hw He).
      * fold (failures es). fold (storm_vars es (failed_vars e v)).
        rewrite Hrun, prepend_prepend. reflexivity.
      * change (Backoff.Tries (snd (Backoff.Delay (backoff v))))
          with (Backoff.Tries (backoff v) + 1). lia.
Qed.

(** C4, as the code has it.  On an error of [watcher.Next] that is not
    [context.Canceled], not a cluster error and not "index cleared", the
    watcher asks the backoff for a delay, which counts the try; it sleeps
    that delay only when the count is above one, so not on the first error
    after a reset; it logs the error; and when the count is above ten it
    runs [resetWatch], whose probe and new watch at the index read follow.
    Ten such errors in a row from a count of zero are handled without a
    probe, the first of them without a sleep; the eleventh runs the
    probe. *)
Theorem unknown_error_backoff_and_resnapshot (key : string) (retry : time.Duration)
    (v : watch_vars) (w : Watcher) (e : error) :
  watcher v = Some w ->
  unknown e = true ->
  let tries := Backoff.Tries (snd (Backoff.Delay (backoff v))) in
  (tries <= 10 ->
   forall fuel script,
     run (backoff_cost v + 3 + fuel) (watch_loop key retry v)
       (RNext (Err e) :: script)
     = prepend
         (Evt (Next w) (Err e) :: backoff_events v
          ++ [Evt (Log (LogUnexpectedWatch e)) tt])
         (run fuel (watch_loop key retry (failed_vars e v)) script))
  /\ (10 < tries ->
      forall errs resp fuel script,
        run (backoff_cost v + rounds_cost errs + 8 + fuel) (watch_loop key retry v)
          (RNext (Err e) :: failed_rounds errs ++ RGet (Ok resp) :: script)
        = prepend
            (Evt (Next w) (Err e) :: backoff_events v
             ++ Evt (Log (LogUnexpectedWatch e)) tt
             :: reset_events key retry errs resp)
            (run fuel
               (watch_loop key retry (reset_vars key resp (failed_vars e v)))
               script))
  /\ sleeps (backoff_events v)
     = (if 1 <? tries then [fst (Backoff.Delay (backoff v))] else [])
  /\ tries = Backoff.Tries (backoff v) + 1
  /\ (Backoff.Tries (backoff v) = 0 ->
      forall es resp,
        List.length es = 10%nat ->
        Forall (fun e' => unknown e' = true) es ->
        exists n pre,
          reads pre = [Ok resp]
          /\ List.length (sleeps pre) = 10%nat
          /\ forall fuel script,
              run (n + fuel) (watch_loop key retry v)
                (failures es ++ RNext (Err e) :: RGet (Ok resp) :: script)
              = prepend pre
                  (run fuel
                     (watch_loop key retry
                        (reset_vars key resp (storm_vars (es ++ [e]) v)))
                     script)).
Proof.
  intros Hw Hu tries. subst tries.
  split; [|split; [|split; [|split]]].
  - intros Ht fuel script. apply unknown_quiet; assumption.
  - intros Ht errs resp fuel script. apply unknown_reset; assumption.
  - apply backoff_events_sleeps.
  - reflexivity.
  - intros H0 es resp Hlen Hes.
    destruct es as [|e1 es]; [discriminate|].
    inversion Hes as [|? ? He1 Hes']; subst.
    cbn [List.length] in Hlen.
    destruct (@storm key retry w es (failed_vars e1 v) Hw Hes')
      as (n & pre & Hr & _ & Hsl & Hrun).
    { rewrite failed_vars_tries. lia. }
    { rewrite failed_vars_tries. lia. }
    set (v10 := storm_vars es (failed_vars e1 v)).
    assert (Hw10 : watcher v10 = Some w).
    { unfold v10. rewrite storm_vars_watcher. exact Hw. }
    assert (Ht10 : Backoff.Tries (backoff v10) = 10).
    { unfold v10. rewrite storm_vars_tries, failed_vars_tries. lia. }
    exists ((backoff_cost v + 3) + (n + (backoff_cost v10 + rounds_cost [] + 8)))%nat.
    exists ((Evt (Next w) (Err e1) :: backoff_events v
             ++ [Evt (Log (LogUnexpectedWatch e1)) tt])
            ++ pre
            ++ (Evt (Next w) (Err e) :: backoff_events v10
                ++ Evt (Log (LogUnexpectedWatch e)) tt
                :: reset_events key retry [] resp)).
    destruct (backoff_events_quiet v) as [Hbr _].
    destruct (backoff_events_quiet v10) as [Hbr10 _].
    pose proof (backoff_events_sleeps v) as Hs0.
    pose proof (backoff_events_sleeps v10) as Hs10.
    change (Backoff.Tries (snd (Backoff.Delay (backoff v))))
      with (Backoff.Tries (backoff v) + 1) in Hs0.
    change (Backoff.Tries (snd (Backoff.Delay (backoff v10))))
      with (Backoff.Tries (backoff v10) + 1) in Hs10.
    rewrite H0 in Hs0. rewrite Ht10 in Hs10. cbn in Hs0, Hs10.
    split; [|split].
    + do 4 (rewrite ?reads_app, ?Hbr, ?Hr, ?Hbr10, ?reset_events_reads;
            cbn [reads app map]).
      reflexivity.
    + do 4 (rewrite ?sleeps_app, ?Hs0, ?Hs10, ?reset_events_sleeps;
            cbn [sleeps app]).
      rewrite length_app, Hsl. cbn [List.length]. lia.
    + intros fuel script.
      replace (storm_vars ((e1 :: es) ++ [e]) v) with (failed_vars e v10).
      2:{ unfold storm_vars, v10. cbn [app fold_left]. rewrite fold_left_app. reflexivity. }
      cbn [failures map app]. fold (failures es).
      rewrite <- !Nat.add_assoc.
      rewrite (Nat.add_assoc (backoff_cost v) 3).
      rewrite (unknown_quiet _ _ _ _ _ _ Hw He1).
      2:{ change (Backoff.Tries (snd (Backoff.Delay (backoff v))))
            with (Backoff.Tries (backoff v) + 1). lia. }
      rewrite Hrun. fold v10.
      replace (backoff_cost v10 + (rounds_cost [] + (8 + fuel)))%nat
        with (backoff_cost v10 + rounds_cost [] + 8 + fuel)%nat by lia.
      change (RNext (Err e) :: RGet (Ok resp) :: script)
        with (RNext (Err e) :: failed_rounds [] ++ RGet (Ok resp) :: script).
      rewrite (unknown_reset _ _ _ _ _ _ _ _ Hw10 Hu).
      2:{ change (Backoff.Tries (snd (Backoff.Delay (backoff v10))))
            with (Backoff.Tries (backoff v10) + 1). lia. }
      rewrite !prepend_prepend.
      f_equal. same_events.
Qed.

Lemma unknown_error_backoff_and_resnapshot_witness :
  watcher watchingA = Some watcherA
  /\ unknown boom = true
  /\ Backoff.Tries (snd (Backoff.Delay (backoff watchingA))) <= 10
  /\ sleeps (trace (run 10 (watch_loop master time.Second watchingA)
                      [RNext (Err boom)])) = [].
Proof.
  assert (H1 : watcher watchingA = Some watcherA) by reflexivity.
  assert (H2 : unknown boom = true) by reflexivity.
  assert (H3 : Backoff.Tries (snd (Backoff.Delay (backoff watchingA))) <= 10)
    by (vm_compute; discriminate).
  split; [exact H1|]. split; [exact H2|]. split; [exact H3|].
  exact (f_equal (fun r => sleeps (trace r))
           (proj1 (@unknown_error_backoff_and_resnapshot master time.Second
                     watchingA watcherA boom H1 H2) H3 7%nat [])).
Defined.

(** C4 as stated fails: a watcher that has just read the key and whose
    [watcher.Next] fails with an error of no known kind logs the error and
    does not sleep. *)
Lemma first_unknown_error_is_not_slept :
  unknown boom = true
  /\ logged (trace (run 20 (AddWatch master time.Second)
                      [RGet (Ok leaseA); RNext (Err boom)]))
     = [LogGotCurrent master "A"; LogResetAt master 5; LogUnexpectedWatch boom]
  /\ sleeps (trace (run 20 (AddWatch master time.Second)
                      [RGet (Ok leaseA); RNext (Err boom)])) = [].
Proof. repeat split. Qed.

(** ** What is sent first, and the empty value *)

(** C1, against the code.  After [AddWatch] has read the key, the first
    call is [watcher.Next] at the index read; the first value sent is the
    value of the first event that is not empty, not the value read; and
    with no event nothing is sent. *)
Theorem AddWatch_first_send_is_next_event (key : string) (retry : time.Duration)
    (errs : list error) (resp next : Response) (script : list reply) (fuel : nat) :
  Value (RNode next) <> "" ->
  let w := {| WatchKey := key; AfterIndex := ModifiedIndex (RNode resp) |} in
  run (rounds_cost errs + 9 + fuel) (AddWatch key retry)
    (failed_rounds errs ++ RGet (Ok resp)
     :: RNext (Ok next) :: RSelect Fired :: script)
  = prepend
      (reset_events key retry errs resp
       ++ [Evt (Next w) (Ok next);
           Evt (Log (LogGot key (Value (RNode next)))) tt;
           Evt (SelectSend (Value (RNode next))) Fired])
      (run fuel
         (watch_loop key retry
            (mkVars (Some w) (Some next) None (Backoff.Reset (backoff watch_init))))
         script)
  /\ sends (reset_events key retry errs resp) = []
  /\ run (rounds_cost errs + 6 + fuel) (AddWatch key retry)
       (failed_rounds errs ++ [RGet (Ok resp)])
     = mkRun (reset_events key retry errs resp) (Halted (Next w)) [] fuel.
Proof.
  intros Hv w. split; [|split].
  - replace (rounds_cost errs + 9 + fuel)%nat
      with (rounds_cost errs + 5 + (4 + fuel))%nat by lia.
    rewrite AddWatch_start.
    rewrite (@watch_loop_value key retry (reset_vars key resp watch_init) w next
               fuel script eq_refl Hv).
    rewrite prepend_prepend. reflexivity.
  - apply reset_events_sends.
  - replace (rounds_cost errs + 6 + fuel)%nat
      with (rounds_cost errs + 5 + S fuel)%nat by lia.
    rewrite AddWatch_start.
    rewrite (@watch_loop_waiting key retry (reset_vars key resp watch_init) w
               fuel eq_refl).
    unfold prepend. cbn. rewrite app_nil_r. reflexivity.
Qed.

Lemma AddWatch_first_send_is_next_event_witness :
  Value (RNode leaseB) <> ""
  /\ reads (trace (run 9 (AddWatch master time.Second)
                     [RGet (Ok leaseA); RNext (Ok leaseB); RSelect Fired]))
     = [Ok leaseA]
  /\ sends (trace (run 9 (AddWatch master time.Second)
                     [RGet (Ok leaseA); RNext (Ok leaseB); RSelect Fired]))
     = ["B"].
Proof.
  assert (H1 : Value (RNode leaseB) <> "") by discriminate.
  split; [exact H1|]. split.
  - exact (f_equal (fun r => reads (trace r))
             (proj1 (@AddWatch_first_send_is_next_event master time.Second
                       [] leaseA leaseB [] 0%nat H1))).
  - exact (f_equal (fun r => sends (trace r))
             (proj1 (@AddWatch_first_send_is_next_event master time.Second
                       [] leaseA leaseB [] 0%nat H1))).
Defined.

(** Closed while the first probe waits: [resetWatch] returns nil with the
    watcher nil, and the loop calls [Next] on it. *)
Lemma AddWatch_closing_panics key retry e fuel script :
  out (run (round_cost e + 4 + fuel) (AddWatch key retry)
         (RGet (Err e) :: RSelect Closed :: script))
  = Halted NilDeref.
Proof.
  unfold AddWatch.
  replace (round_cost e + 4 + fuel)%nat
    with (rounds_cost [] + round_cost e + 3 + S fuel)%nat
    by (cbn [rounds_cost]; lia).
  change (RGet (Err e) :: RSelect Closed :: script)
    with (failed_rounds [] ++ RGet (Err e) :: RSelect Closed :: script).
  rewrite resetWatch_closing. cbn [fst snd set_err set_re_err err watch_init].
  rewrite watch_loop_eq. unfold watch_step. cbn [watcher]. run_steps. reflexivity.
Qed.

(** C8, against the code.  An event of [watcher.Next] with the empty value
    is skipped; the value read after "index cleared" is sent even when it is
    the empty string. *)
Theorem watcher_sends_empty_snapshot (key : string) (retry : time.Duration)
    (v : watch_vars) (w : Watcher) (empty : Response)
    (script : list reply) (fuel : nat) :
  watcher v = Some w ->
  Value (RNode empty) = "" ->
  let cleared := ClientError ErrorCodeEventIndexCleared in
  sends (trace (run (3 + fuel) (watch_loop key retry v)
                  (RNext (Ok empty) :: script)))
  = sends (trace (run fuel
                    (watch_loop key retry
                       (mkVars (Some w) (Some empty) None (backoff v)))
                    script))
  /\ sends (trace (run (backoff_cost v + 9 + fuel) (watch_loop key retry v)
                     (RNext (Err cleared) :: RGet (Ok empty)
                      :: RSelect Fired :: script)))
     = "" :: sends (trace (run fuel
                             (watch_loop key retry
                                (reset_vars key empty (failed_vars cleared v)))
                             script)).
Proof.
  intros Hw Hv cleared. split.
  - rewrite (@watch_loop_empty key retry v w empty fuel script Hw Hv). reflexivity.
  - pose proof (@index_cleared_run key retry v w [] empty fuel script Hw) as H.
    cbn [rounds_cost failed_rounds flat_map app] in H.
    rewrite Nat.add_0_r in H. unfold cleared. rewrite H.
    unfold prepend. cbn [trace].
    do 4 (rewrite ?sends_app, ?(proj2 (backoff_events_quiet v)),
            ?reset_events_sends; cbn [sends app]).
    rewrite Hv. reflexivity.
Qed.

Lemma watcher_sends_empty_snapshot_witness :
  watcher watchingA = Some watcherA
  /\ Value (RNode emptied) = ""
  /\ sends (trace (run 20 (AddWatch master time.Second)
                     [RGet (Ok leaseA); RNext (Err indexCleared);
                      RGet (Ok emptied); RSelect Fired]))
     = [""]
  /\ sends (trace (run 9 (watch_loop master time.Second watchingA)
                     [RNext (Err indexCleared); RGet (Ok emptied);
                      RSelect Fired]))
     = [""].
Proof.
  assert (H1 : watcher watchingA = Some watcherA) by reflexivity.
  assert (H2 : Value (RNode emptied) = "") by reflexivity.
  split; [exact H1|]. split; [exact H2|]. split; [reflexivity|].
  exact (proj2 (@watcher_sends_empty_snapshot master time.Second watchingA
                  watcherA emptied [] 0%nat H1 H2)).
Defined.

(* ================================================================== *)
(** * [Close] *)

Lemma nth_error_map_call i ps :
  nth_error (map call_at ps) i = option_map call_at (nth_error ps i).
Proof. apply nth_error_map. Qed.

Lemma update_map {A B} (f : A -> B) i x : forall l,
  update i (f x) (map f l) = map f (update i x l).
Proof.
  revert i. induction i as [|i IH]; intros [|y l]; cbn; try reflexivity.
  rewrite IH. reflexivity.
Qed.

(** [step] on calls given by their phases is [pstep]. *)
Lemma step_concrete i a : step i (concrete a) = concrete (pstep i a).
Proof.
  unfold step, pstep, concrete. cbn [calls client closes panicked].
  rewrite nth_error_map_call.
  destruct (nth_error (phases a) i) as [[]|]; cbn [option_map]; try reflexivity.
  - cbn. destruct (closed (pclient a) =? 0); cbn; rewrite <- update_map; reflexivity.
  - cbn. destruct (closeC_open (pclient a)); cbn; [rewrite <- update_map|]; reflexivity.
Qed.

Lemma run_schedule_concrete sched : forall a,
  run_schedule sched (concrete a) = concrete (prun sched a).
Proof.
  induction sched as [|i sched IH]; intros a; [reflexivity|].
  cbn [run_schedule prun fold_left]. rewrite step_concrete. apply IH.
Qed.

Lemma count_update q p p' : forall ps i,
  nth_error ps i = Some p ->
  (count q (update i p' ps) + (if is_phase q p then 1 else 0)
   = count q ps + (if is_phase q p' then 1 else 0))%nat.
Proof.
  induction ps as [|x ps IH]; intros [|i] H; cbn in H; try discriminate.
  - inversion H; subst. cbn. lia.
  - cbn. specialize (IH i H). lia.
Qed.

Lemma update_length {A} (x : A) : forall l i, List.length (update i x l) = List.length l.
Proof.
  induction l as [|y l IH]; intros [|i]; cbn; try reflexivity.
  rewrite IH. reflexivity.
Qed.

(** [settled] is kept by every action. *)
Lemma settled_pstep i a : settled a -> settled (pstep i a).
Proof.
  intros (Hp & Hc & Ho & Hcase). unfold pstep.
  destruct (nth_error (phases a) i) as [p|] eqn:Hn; [|repeat split; assumption].
  pose proof (@count_update Won p Won _ _ Hn) as HWW. pose proof (@count_update Won p Done _ _ Hn) as HWD.
  pose proof (@count_update Won p Lost _ _ Hn) as HWL.
  pose proof (@count_update Done p Won _ _ Hn) as HDW. pose proof (@count_update Done p Done _ _ Hn) as HDD.
  pose proof (@count_update Done p Lost _ _ Hn) as HDL.
  pose proof (@count_update Lost p Won _ _ Hn) as HLW. pose proof (@count_update Lost p Done _ _ Hn) as HLD.
  pose proof (@count_update Lost p Lost _ _ Hn) as HLL.
  unfold settled.
  destruct p; cbn [is_phase] in *.
  - destruct (Z.eqb_spec (closed (pclient a)) 0) as [H0|H0];
      cbn [pclient phases pcloses ppanicked closed closeC_open].
    + destruct Hcase as [[_ Hz]|[H1 _]]; [|lia].
      split; [assumption|]. split; [lia|]. split.
      * rewrite Ho. f_equal. lia.
      * right. split; [reflexivity|lia].
    + destruct Hcase as [[Hz _]|[H1 Hs]]; [lia|].
      split; [assumption|]. split; [lia|]. split.
      * rewrite Ho. f_equal. lia.
      * right. split; [assumption|lia].
  - repeat split; assumption.
  - destruct Hcase as [[_ Hz]|[H1 Hs]]; [lia|].
    assert (HD : count Done (phases a) = 0%nat) by lia.
    rewrite HD in Ho. cbn in Ho. rewrite Ho.
    cbn [pclient phases pcloses ppanicked closed closeC_open].
    split; [assumption|]. split; [lia|]. split.
    + symmetry. apply Nat.eqb_neq. lia.
    + right. split; [assumption|lia].
  - repeat split; assumption.
Qed.

Lemma settled_prun sched : forall a, settled a -> settled (prun sched a).
Proof.
  induction sched as [|i sched IH]; intros a Ha; [exact Ha|].
  apply IH. apply settled_pstep. exact Ha.
Qed.

Lemma returned_call_at p :
  returned (call_at p) = match todo p with O => Some None | S _ => None end.
Proof. destruct p; reflexivity. Qed.

Lemma nth_error_update_same {A} (x : A) : forall l i y,
  nth_error l i = Some y -> nth_error (update i x l) i = Some x.
Proof.
  induction l as [|z l IH]; intros [|i] y H; cbn in *; try discriminate; eauto.
Qed.

Lemma nth_error_update_other {A} (x : A) : forall l i j,
  i <> j -> nth_error (update j x l) i = nth_error l i.
Proof.
  induction l as [|z l IH]; intros [|i] [|j] H; cbn; try reflexivity; try lia.
  apply IH. lia.
Qed.

Lemma count_pos p : forall ps i, nth_error ps i = Some p -> (1 <= count p ps)%nat.
Proof.
  induction ps as [|q ps IH]; intros [|i] H; cbn in *; try discriminate.
  - inversion H; subst. destruct p; cbn; lia.
  - specialize (IH i H). lia.
Qed.

(** A call that is scheduled takes one of the actions it has left. *)
Lemma pstep_progress i a p :
  settled a -> nth_error (phases a) i = Some p ->
  exists p', nth_error (phases (pstep i a)) i = Some p'
             /\ (todo p' <= todo p - 1)%nat.
Proof.
  intros (Hp & Hc & Ho & Hcase) Hn. unfold pstep. rewrite Hn.
  destruct p.
  - destruct (closed (pclient a) =? 0); cbn [phases];
      rewrite (@nth_error_update_same _ _ _ _ _ Hn); eexists; (split; [reflexivity|cbn; lia]).
  - exists Lost. split; [exact Hn|cbn; lia].
  - pose proof (@count_pos _ _ _ Hn) as Hw.
    destruct Hcase as [[_ Hz]|[H1 Hs]]; [lia|].
    assert (HD : count Done (phases a) = 0%nat) by lia.
    rewrite HD in Ho. cbn in Ho. rewrite Ho. cbn [phases].
    rewrite (@nth_error_update_same _ _ _ _ _ Hn). exists Done. split; [reflexivity|cbn; lia].
  - exists Done. split; [exact Hn|cbn; lia].
Qed.

Lemma pstep_other i j a :
  i <> j -> nth_error (phases (pstep j a)) i = nth_error (phases a) i.
Proof.
  intros Hij. unfold pstep.
  destruct (nth_error (phases a) j) as [[]|]; try reflexivity.
  - destruct (closed (pclient a) =? 0); cbn [phases];
      apply nth_error_update_other; assumption.
  - destruct (closeC_open (pclient a)); cbn [phases]; [|reflexivity].
    apply nth_error_update_other; assumption.
Qed.

Lemma prun_progress i sched : forall a p,
  settled a -> nth_error (phases a) i = Some p ->
  exists p', nth_error (phases (prun sched a)) i = Some p'
             /\ (todo p' <= todo p - count_occ Nat.eq_dec sched i)%nat.
Proof.
  induction sched as [|j sched IH]; intros a p Ha Hn.
  - exists p. split; [exact Hn|cbn; lia].
  - cbn [prun fold_left count_occ].
    destruct (Nat.eq_dec j i) as [->|Hji].
    + destruct (@pstep_progress i a p Ha Hn) as (p1 & Hn1 & Ht1).
      destruct (IH _ _ (@settled_pstep i a Ha) Hn1) as (p2 & Hn2 & Ht2).
      exists p2. split; [exact Hn2|lia].
    + assert (Hn1 : nth_error (phases (pstep j a)) i = Some p).
      { rewrite pstep_other by congruence. exact Hn. }
      destruct (IH _ _ (@settled_pstep j a Ha) Hn1) as (p2 & Hn2 & Ht2).
      exists p2. split; [exact Hn2|lia].
Qed.

Lemma pstep_length i a : List.length (phases (pstep i a)) = List.length (phases a).
Proof.
  unfold pstep. destruct (nth_error (phases a) i) as [[]|]; try reflexivity.
  - destruct (closed (pclient a) =? 0); cbn [phases]; apply update_length.
  - destruct (closeC_open (pclient a)); cbn [phases]; [apply update_length|reflexivity].
Qed.

Lemma prun_length sched : forall a, List.length (phases (prun sched a)) = List.length (phases a).
Proof.
  induction sched as [|i sched IH]; intros a; [reflexivity|].
  cbn [prun fold_left]. fold (prun sched (pstep i a)). rewrite IH. apply pstep_length.
Qed.

Lemma closing_concrete l n : closing l n = concrete (fresh_calls l n).
Proof. unfold closing, concrete, fresh_calls. cbn. rewrite map_repeat. reflexivity. Qed.

Lemma count_repeat_fresh p n : p <> Fresh -> count p (repeat Fresh n) = 0%nat.
Proof.
  intros Hp. induction n as [|n IH]; [reflexivity|].
  cbn. rewrite IH. destruct p; try reflexivity. contradiction.
Qed.

Lemma settled_fresh n : settled (fresh_calls NewClient n).
Proof.
  unfold settled, fresh_calls. cbn [pclient phases pcloses ppanicked NewClient closed closeC_open].
  rewrite !count_repeat_fresh by discriminate.
  repeat split. left. split; reflexivity.
Qed.

Lemma all_returned_count ps :
  Forall (fun t => returned t <> None) (map call_at ps) ->
  count Won ps = 0%nat
  /\ (ps <> [] -> (1 <= count Done ps + count Lost ps)%nat).
Proof.
  induction ps as [|p ps IH]; intros H; [split; [reflexivity|congruence]|].
  inversion H as [|? ? Hp Hps]; subst. destruct (IH Hps) as [IHw IHd].
  rewrite returned_call_at in Hp.
  destruct p; cbn in Hp; try congruence; cbn; split; try lia; assumption.
Qed.

(** A single call on a client that is closed already changes nothing. *)
Lemma closed_client_untouched l sched :
  closed l <> 0 ->
  forall p b, p = Fresh \/ p = Lost ->
  pclient (prun sched (mkPWorld l [p] 0 b)) = l
  /\ pcloses (prun sched (mkPWorld l [p] 0 b)) = 0%nat.
Proof.
  intros Hl. induction sched as [|i sched IH]; intros p b Hp; [split; reflexivity|].
  cbn [prun fold_left]. fold (prun sched (pstep i (mkPWorld l [p] 0 b))).
  apply Z.eqb_neq in Hl.
  destruct i as [|i]; unfold pstep; cbn [phases nth_error pclient pcloses ppanicked].
  - destruct Hp as [-> | ->].
    + rewrite Hl. cbn [update]. apply IH. right; reflexivity.
    + apply IH. right; reflexivity.
  - replace (nth_error (@nil phase) i) with (@None phase) by (destruct i; reflexivity).
    apply IH. exact Hp.
Qed.

(** C3.  For [n] calls of [Close] on a client from [NewClient], interleaved
    by any schedule: no call panics; [closeC] is closed at most once; every
    call that has returned, returned nil; a call that was scheduled twice
    has returned; and once all calls have returned, [n] being at least one,
    [closeC] has been closed exactly once.  A call of [Close] on a client
    whose [closed] word is not zero leaves the client as it is. *)
Theorem Close_closes_once (n : nat) (sched : list nat) :
  let w := run_schedule sched (closing NewClient n) in
  panicked w = false
  /\ (closes w <= 1)%nat
  /\ List.length (calls w) = n
  /\ Forall (fun t => returned t = None \/ returned t = Some None) (calls w)
  /\ (forall i, (i < n)%nat -> (2 <= count_occ Nat.eq_dec sched i)%nat ->
        option_map returned (nth_error (calls w) i) = Some (Some None))
  /\ ((1 <= n)%nat -> Forall (fun t => returned t <> None) (calls w) ->
        closes w = 1%nat /\ closed (client w) = 1 /\ closeC_open (client w) = false)
  /\ (forall l, closed l <> 0 ->
        client (run_schedule sched (closing l 1)) = l
        /\ closes (run_schedule sched (closing l 1)) = 0%nat).
Proof.
  cbv zeta. rewrite closing_concrete, run_schedule_concrete.
  pose proof (@settled_prun sched _ (settled_fresh n)) as Hs.
  pose proof (prun_length sched (fresh_calls NewClient n)) as Hlen.
  cbn [fresh_calls phases] in Hlen. rewrite repeat_length in Hlen.
  set (a := prun sched (fresh_calls NewClient n)) in *.
  destruct Hs as (Hp & Hc & Ho & Hcase).
  unfold concrete. cbn [panicked closes calls client].
  split; [exact Hp|].
  split; [destruct Hcase as [[_ Hz]|[_ Hz]]; lia|].
  split; [rewrite length_map; exact Hlen|].
  split.
  { apply Forall_forall. intros t Ht. apply in_map_iff in Ht. destruct Ht as (p & <- & _).
    rewrite returned_call_at. destruct (todo p); [right|left]; reflexivity. }
  split.
  { intros i Hi H2.
    assert (Hn : nth_error (phases (fresh_calls NewClient n)) i = Some Fresh).
    { cbn [fresh_calls phases]. apply nth_error_repeat. exact Hi. }
    destruct (@prun_progress i sched _ _ (settled_fresh n) Hn) as (p' & Hn' & Ht).
    fold a in Hn'. rewrite nth_error_map, Hn'. cbn [option_map].
    rewrite returned_call_at. cbn [todo] in Ht.
    destruct (todo p'); [reflexivity|lia]. }
  split.
  { intros Hn Hall. destruct (@all_returned_count _ Hall) as [Hw Hd].
    assert (Hne : phases a <> []).
    { intros E. rewrite E in Hlen. cbn in Hlen. lia. }
    specialize (Hd Hne).
    destruct Hcase as [[_ Hz]|[H1 Hz]]; [lia|].
    assert (HD : count Done (phases a) = 1%nat) by lia.
    split; [lia|]. split; [exact H1|]. rewrite Ho, HD. reflexivity. }
  intros l Hl. rewrite closing_concrete, run_schedule_concrete.
  unfold concrete. cbn [client closes].
  apply (@closed_client_untouched l sched Hl Fresh false). left; reflexivity.
Qed.

Lemma Close_closes_once_witness :
  (1 <= 3)%nat
  /\ Forall (fun t => returned t <> None)
       (calls (run_schedule [0; 1; 2; 1; 0; 2]%nat (closing NewClient 3)))
  /\ closes (run_schedule [0; 1; 2; 1; 0; 2]%nat (closing NewClient 3)) = 1%nat.
Proof.
  assert (H1 : (1 <= 3)%nat) by lia.
  assert (H2 : Forall (fun t => returned t <> None)
                 (calls (run_schedule [0; 1; 2; 1; 0; 2]%nat
                           (closing NewClient 3))))
    by (repeat constructor; discriminate).
  split; [exact H1|]. split; [exact H2|].
  exact (proj1 (proj1 (proj2 (proj2 (proj2 (proj2 (proj2
           (Close_closes_once 3 [0; 1; 2; 1; 0; 2]%nat)))))) H1 H2)).
Defined.

(* ================================================================== *)
(** * Rules kept by every run *)

Section RuleLemmas.

Context {G : Type}.
Variable rule : G -> event -> G -> Prop.

Lemma follows_app g tr1 g1 tr2 g2 :
  follows rule g tr1 g1 -> follows rule g1 tr2 g2 ->
  follows rule g (tr1 ++ tr2) g2.
Proof.
  induction 1 as [|g ev ga tr gb Hr Hf IH]; intros H2; cbn; [exact H2|].
  econstructor; [exact Hr|]. apply IH, H2.
Qed.

Lemma obeys_ret {R} g (r : R) (Q : R -> G -> Prop) :
  Q r g -> obeys rule g (Ret r) Q.
Proof.
  intros HQ fuel script. exists g. rewrite run_ret. cbn. split.
  - constructor.
  - intros r' H. inversion H; subst. exact HQ.
Qed.

Lemma obeys_weaken {R} g (t : itree leaderE R) (Q Q' : R -> G -> Prop) :
  obeys rule g t Q -> (forall r g', Q r g' -> Q' r g') -> obeys rule g t Q'.
Proof.
  intros H HQ fuel script. destruct (H fuel script) as (g' & Hf & Hr).
  exists g'. split; [exact Hf|]. intros r E. apply HQ, Hr, E.
Qed.

Lemma obeys_bind {R S} g (t : itree leaderE R) (k : R -> itree leaderE S)
    (Q1 : R -> G -> Prop) (Q : S -> G -> Prop) :
  obeys rule g t Q1 ->
  (forall x g1, Q1 x g1 -> obeys rule g1 (k x) Q) ->
  obeys rule g (ITree.bind t k) Q.
Proof.
  intros Ht Hk fuel script. rewrite run_bind. unfold and_then.
  destruct (Ht fuel script) as (g1 & Hf & Hr).
  destruct (run fuel t script) as [tr o rs lf]. cbn [out trace rest fuel_left] in *.
  destruct o as [x| |].
  - destruct (Hk x g1 (Hr x eq_refl) lf rs) as (g2 & Hf2 & Hr2).
    exists g2. cbn [trace out]. split; [|exact Hr2].
    eapply follows_app; eassumption.
  - exists g1. cbn. split; [exact Hf|]. discriminate.
  - exists g1. cbn. split; [exact Hf|]. discriminate.
Qed.

Lemma obeys_trigger {X} g (e : leaderE X) (Q : X -> G -> Prop) :
  (forall x, exists g1, rule g (Evt e x) g1 /\ Q x g1) ->
  obeys rule g (ITree.trigger e) Q.
Proof.
  intros H fuel script. destruct fuel as [|fuel].
  - exists g. cbn. split; [constructor|discriminate].
  - rewrite run_trigger. destruct (answer e script) as [[x s']|].
    + destruct (H x) as (g1 & Hr & HQ). exists g1. cbn. split.
      * econstructor; [exact Hr|constructor].
      * intros r E. inversion E; subst. exact HQ.
    + exists g. cbn. split; [constructor|discriminate].
Qed.

Lemma obeys_call {X R} g (e : leaderE X) (k : X -> itree leaderE R)
    (Q : R -> G -> Prop) :
  (forall x, exists g1, rule g (Evt e x) g1 /\ obeys rule g1 (k x) Q) ->
  obeys rule g (ITree.bind (ITree.trigger e) k) Q.
Proof.
  intros H. apply obeys_bind with (Q1 := fun x g1 => rule g (Evt e x) g1 /\ obeys rule g1 (k x) Q).
  - apply obeys_trigger. intros x. destruct (H x) as (g1 & Hr & Ho).
    exists g1. auto.
  - intros x g1 [_ Ho]. exact Ho.
Qed.

Lemma obeys_nil_deref {R} g (Q : R -> G -> Prop) :
  obeys rule g nil_deref Q.
Proof.
  intros fuel script. exists g. destruct fuel; cbn; (split; [constructor|discriminate]).
Qed.

Lemma obeys_tau {R} g (t : itree leaderE R) (Q : R -> G -> Prop) :
  obeys rule g t Q -> obeys rule g (Tau t) Q.
Proof.
  intros H fuel script. destruct fuel as [|fuel].
  - exists g. cbn. split; [constructor|discriminate].
  - rewrite run_tau. apply H.
Qed.

(** A loop keeps to a rule when its body does, from every state and note
    that an invariant lets through. *)
Lemma obeys_iter {I R} (body : I -> itree leaderE (I + R))
    (Inv : I -> G -> Prop) (Q : R -> G -> Prop) :
  (forall i g, Inv i g ->
     obeys rule g (body i)
       (fun lr g' => match lr with inl j => Inv j g' | inr r => Q r g' end)) ->
  forall i g, Inv i g -> obeys rule g (ITree.iter body i) Q.
Proof.
  intros Hbody i g Hi fuel. revert i g Hi.
  induction fuel as [fuel IH] using lt_wf_ind. intros i g Hi script.
  rewrite run_iter, run_bind. unfold and_then.
  destruct (Hbody i g Hi fuel script) as (g1 & Hf & Hr).
  pose proof (run_fuel_left_le fuel (body i) script) as Hle.
  destruct (run fuel (body i) script) as [tr o rs lf].
  cbn [out trace rest fuel_left] in *.
  destruct o as [[j|r]| |].
  - specialize (Hr _ eq_refl). cbn in Hr.
    destruct lf as [|lf].
    + exists g1. cbn. rewrite app_nil_r. split; [exact Hf|discriminate].
    + rewrite run_tau. destruct (IH lf ltac:(lia) j g1 Hr rs) as (g2 & Hf2 & Hr2).
      exists g2. cbn [trace out]. split; [|exact Hr2].
      eapply follows_app; eassumption.
  - specialize (Hr _ eq_refl). cbn in Hr. rewrite run_ret. cbn.
    rewrite app_nil_r. exists g1. split; [exact Hf|].
    intros r' E. inversion E; subst. exact Hr.
  - exists g1. cbn. split; [exact Hf|discriminate].
  - exists g1. cbn. split; [exact Hf|discriminate].
Qed.

Lemma obeys_bind_bind {R S T} g (t : itree leaderE R)
    (k : R -> itree leaderE S) (h : S -> itree leaderE T) (Q : T -> G -> Prop) :
  obeys rule g (ITree.bind t (fun x => ITree.bind (k x) h)) Q ->
  obeys rule g (ITree.bind (ITree.bind t k) h) Q.
Proof. intros H fuel script. rewrite run_bind_bind. apply H. Qed.

Lemma obeys_ret_bind {R S} g (r : R) (k : R -> itree leaderE S)
    (Q : S -> G -> Prop) :
  obeys rule g (k r) Q -> obeys rule g (ITree.bind (Ret r) k) Q.
Proof. intros H fuel script. rewrite run_ret_bind. apply H. Qed.

End RuleLemmas.

(** The next step of a proof that a program keeps to a rule: past a
    [Ret], or past a call for which the rule is left to show. *)
Ltac obey_step :=
  first
    [ apply obeys_bind_bind
    | apply obeys_ret_bind
    | apply obeys_ret
    | apply obeys_nil_deref
    | apply obeys_tau
    | apply obeys_call; intros ?; eexists; split ].

(* ================================================================== *)
(** * The voter, over its whole life *)

Ltac obey_call x := apply obeys_call; intros x; eexists; split.

Ltac rule_ok :=
  cbn; repeat split; try reflexivity; try assumption;
  try congruence; try (intuition congruence).

Ltac obey := repeat (obey_step; [try rule_ok..]).

Lemma elect_under_obeys deferred key value term last :
  (forall g, obeys (voter_rule key value term) g deferred (fun _ _ => True)) ->
  obeys (voter_rule key value term) last (elect_under deferred key value term)
    (fun _ _ => True).
Proof.
  intros Hd. unfold elect_under, log.
  obey_call u; [reflexivity|].
  obey_call r; [split; reflexivity|].
  destruct r as [resp|e].
  - destruct (String.eqb_spec (Value (RNode resp)) value) as [Hv|Hv]; cbn [negb].
    + obey_call now; [reflexivity|].
      destruct (Expiration (RNode resp)) as [expiration|].
      2:{ eapply obeys_bind; [apply Hd|]. intros. apply obeys_nil_deref. }
      destruct (time.div term 2 <? time.Sub expiration now); [obey_step; exact I|].
      obey_call r'.
      { cbn. repeat split; assumption. }
      destruct r'; repeat (obey_step; try reflexivity; try exact I).
    + repeat (obey_step; try reflexivity; try exact I).
  - destruct (IsNotFound e) eqn:He; cbn [negb].
    + obey_call u'; [reflexivity|].
      obey_call r'.
      { cbn. repeat split; assumption. }
      destruct r'; repeat (obey_step; try reflexivity; try exact I).
    + obey_step. exact I.
Qed.

Lemma log_voter_error_obeys {G S} (rule : G -> event -> G -> Prop) g e
    (k : unit -> itree leaderE S) (Q : S -> G -> Prop) :
  (forall l, rule g (Evt (Log l) tt) g) ->
  obeys rule g (k tt) Q ->
  obeys rule g (ITree.bind (log_voter_error e) k) Q.
Proof.
  intros Hl Hk. destruct e as [e|]; cbn [log_voter_error]; unfold log.
  - apply obeys_call. intros []. exists g. split; [apply Hl|exact Hk].
  - apply obeys_ret_bind. exact Hk.
Qed.

Lemma voter_obeys key value term :
  obeys (voter_rule key value term) None (voter key value term)
    (fun _ _ => True).
Proof.
  unfold voter, elect.
  eapply obeys_bind.
  { apply elect_under_obeys. intros g. apply obeys_ret. exact I. }
  intros e g1 _.
  apply log_voter_error_obeys; [reflexivity|].
  obey_call u; [rule_ok|].
  unfold voter_loop.
  apply obeys_iter with (Inv := fun _ _ => True); [|exact I].
  intros [] g _. unfold voter_step.
  obey_call c; [rule_ok|].
  destruct c.
  - eapply obeys_bind.
    { apply elect_under_obeys. intros g0. apply obeys_trigger.
      intros []. exists g0. split; [reflexivity|exact I]. }
    intros e' g2 _.
    apply log_voter_error_obeys; [reflexivity|].
    obey.
  - unfold log. obey.
Qed.

(** A call of the life of a ticker, as a call of the life of the voter. *)
Ltac life_ok :=
  cbn;
  first
    [ left; split; reflexivity
    | right; split; reflexivity
    | do 2 eexists; split; [reflexivity|split; [reflexivity|rule_ok]] ].

Ltac live_call x := apply obeys_call; intros x; eexists; split; [life_ok|].

Lemma elect_under_life period deferred key value term s :
  s = Before \/ s = Ticking ->
  obeys (voter_life period) (Some s) deferred (fun _ _ => True) ->
  obeys (voter_life period) (Some s) (elect_under deferred key value term)
    (fun _ g' => g' = Some s).
Proof.
  intros Hs Hd. unfold elect_under, log.
  live_call u. live_call r.
  destruct r as [resp|e].
  - destruct (negb (Value (RNode resp) =? value)%string).
    + live_call u'. apply obeys_ret. reflexivity.
    + live_call now.
      destruct (Expiration (RNode resp)) as [expiration|].
      2:{ eapply obeys_bind; [apply Hd|]. intros. apply obeys_nil_deref. }
      destruct (time.div term 2 <? time.Sub expiration now);
        [apply obeys_ret; reflexivity|].
      live_call r'.
      destruct r'; [live_call u'|]; apply obeys_ret; reflexivity.
  - destruct (negb (IsNotFound e)); [apply obeys_ret; reflexivity|].
    live_call u'. live_call r'.
    destruct r'; [live_call u''|]; apply obeys_ret; reflexivity.
Qed.

Lemma voter_lives key value term :
  obeys (voter_life (time.div term 5)) (Some Before) (voter key value term)
    (fun _ g => g = Some Stopped).
Proof.
  unfold voter, elect.
  eapply obeys_bind.
  { apply elect_under_life; [left; reflexivity|]. apply obeys_ret. exact I. }
  intros e g1 ->.
  apply log_voter_error_obeys; [intros l; life_ok|].
  live_call u.
  unfold voter_loop.
  apply obeys_iter with (Inv := fun _ g => g = Some Ticking); [|reflexivity].
  intros [] g ->. unfold voter_step.
  live_call c.
  destruct c.
  - eapply obeys_bind.
    { apply elect_under_life; [right; reflexivity|].
      apply obeys_trigger. intros []. exists None. split; [life_ok|exact I]. }
    intros e' g2 ->.
    apply log_voter_error_obeys; [intros l; life_ok|].
    apply obeys_ret. reflexivity.
  - unfold log. live_call u1. live_call u2. apply obeys_ret. reflexivity.
Qed.

Lemma getFirstValue_ticker key retry :
  obeys (ticker_rule retry true) Before (getFirstValue key retry)
    (fun _ g => g = Stopped).
Proof.
  unfold getFirstValue.
  obey_call u; [rule_ok|].
  eapply obeys_bind with (Q1 := fun _ g => g = Ticking \/ g = Closing).
  - unfold getFirstValue_loop.
    apply obeys_iter with (Inv := fun _ g => g = Ticking); [|reflexivity].
    intros [] g ->. unfold getFirstValue_step.
    obey_call r; [rule_ok|].
    destruct r as [resp|e]; [obey|].
    destruct (negb (IsNotFound e)); unfold log.
    + obey_call u'; [rule_ok|].
      obey_call c; [rule_ok|].
      destruct c; obey.
    + apply obeys_ret_bind.
      obey_call c; [rule_ok|].
      destruct c; obey.
  - intros p g Hg. obey.
Qed.

(* ================================================================== *)
(** * The watcher, over its whole life *)

Lemma getFirstValue_watcher key retry g :
  obeys (watcher_rule key) g (getFirstValue key retry)
    (fun p g' =>
       snd p = None
       /\ match fst p with
          | Some r => g' = mkNote (Some (Value (RNode r)))
                                 (Some (ModifiedIndex (RNode r)))
          | None => mark g' = mark g
          end).
Proof.
  unfold getFirstValue.
  obey_call u; [rule_ok|].
  apply obeys_bind
    with (Q1 := fun p g' =>
       snd p = None
       /\ match fst p with
          | Some r => g' = mkNote (Some (Value (RNode r)))
                                 (Some (ModifiedIndex (RNode r)))
          | None => mark g' = mark g
          end); [|intros p g1 Hp; obey; apply Hp].
  unfold getFirstValue_loop.
  apply obeys_iter with (Inv := fun _ g1 => mark g1 = mark g); [|reflexivity].
  intros [] g1 Hg1. unfold getFirstValue_step.
  obey_call r; [rule_ok|].
  destruct r as [resp|e]; [obey|].
  destruct (negb (IsNotFound e)); unfold log.
  - obey_call u'; [rule_ok|].
    obey_call c; [rule_ok|].
    destruct c; obey.
  - apply obeys_ret_bind.
    obey_call c; [rule_ok|].
    destruct c; obey.
Qed.

Lemma resetWatch_watcher key retry v g :
  watching key v g ->
  obeys (watcher_rule key) g (resetWatch key retry v)
    (fun p g' =>
       fst p = None /\ err (snd p) = None
       /\ watching key (snd p) g' /\ holding (snd p) g').
Proof.
  intros Hv. unfold resetWatch.
  eapply obeys_bind; [apply getFirstValue_watcher|].
  intros [re0 err0] g1 [He Hr]. cbn [fst snd] in He, Hr. subst err0.
  cbn [fst snd set_re_err err re].
  destruct re0 as [r|]; unfold log.
  - subst g1. obey; unfold watching, holding; cbn; auto.
  - obey; unfold watching, holding in *; cbn.
    destruct (watcher v) as [w|]; [|exact I].
    destruct Hv as [Hk Hm]. split; [exact Hk|]. rewrite Hr. exact Hm.
Qed.

Lemma send_value_watcher key v g :
  watching key v g -> holding v g ->
  obeys (watcher_rule key) g (send_value v)
    (fun lr g' =>
       match lr with inl j => watching key j g' | inr _ => True end).
Proof.
  intros Hv Hh. unfold send_value. unfold holding in Hh.
  destruct (re v) as [r|]; [|obey].
  obey_call c; [rule_ok|].
  destruct c; obey.
Qed.

Lemma unknown_error_watcher key retry e v g :
  watching key v g ->
  obeys (watcher_rule key) g (unknown_error key retry e v)
    (fun lr g' =>
       match lr with inl j => watching key j g' | inr _ => True end).
Proof.
  intros Hv. unfold unknown_error, log.
  obey_call u; [rule_ok|].
  destruct (10 <? Backoff.Tries (backoff v)).
  - apply obeys_bind_bind.
    eapply obeys_bind; [apply resetWatch_watcher, Hv|].
    intros p g1 (_ & _ & Hw & _). obey.
  - obey.
Qed.

Lemma on_error_watcher key retry e v g :
  watching key v g ->
  obeys (watcher_rule key) g (on_error key retry e v)
    (fun lr g' =>
       match lr with inl j => watching key j g' | inr _ => True end).
Proof.
  intros Hv.
  destruct e as [|errs|code|msg|msg|e']; cbn [on_error];
    try (apply unknown_error_watcher, Hv).
  - unfold log. obey.
  - unfold log. destruct errs as [|[] errs]; obey.
  - destruct (code =? ErrorCodeEventIndexCleared);
      [|apply unknown_error_watcher, Hv].
    unfold log. obey_call u; [rule_ok|].
    eapply obeys_bind; [apply resetWatch_watcher, Hv|].
    intros [e1 v1] g1 (He & Herr & Hw & Hh). cbn [fst snd] in *. subst e1.
    unfold after_reset. cbn [fst snd set_err err].
    apply send_value_watcher.
    + exact Hw.
    + exact Hh.
Qed.

Lemma watch_step_watcher key retry v g :
  watching key v g ->
  obeys (watcher_rule key) g (watch_step key retry v)
    (fun lr g' =>
       match lr with inl j => watching key j g' | inr _ => True end).
Proof.
  intros Hv. unfold watch_step. pose proof Hv as Hv'. unfold watching in Hv'.
  destruct (watcher v) as [w|] eqn:Hw; [|obey].
  destruct Hv' as [Hk Hm].
  obey_call r; [rule_ok|].
  assert (Hkeep : forall r0 e0 b h,
             watching key (set_backoff (set_re_err v r0 e0) b)
               (mkNote h (mark g))).
  { intros. unfold watching. cbn. rewrite Hw. split; assumption. }
  destruct r as [resp|e].
  - cbn zeta. destruct (Value (RNode resp) =? "")%string; unfold log.
    + obey.
    + obey_call u; [rule_ok|].
      apply send_value_watcher; [apply Hkeep|].
      unfold holding. cbn. reflexivity.
  - cbn zeta.
    match goal with
    | |- context [if ?c then _ else _] => destruct c
    end; unfold log.
    + apply obeys_bind_bind. obey_call u; [rule_ok|].
      obey_call u'; [rule_ok|].
      apply on_error_watcher, Hkeep.
    + apply obeys_ret_bind. apply on_error_watcher, Hkeep.
Qed.

Lemma AddWatch_watcher key retry :
  obeys (watcher_rule key) (mkNote None None) (AddWatch key retry)
    (fun _ _ => True).
Proof.
  unfold AddWatch.
  eapply obeys_bind; [apply resetWatch_watcher; exact I|].
  intros [e v] g (He & Herr & Hw & _). cbn [fst snd] in *. subst e.
  cbn [set_err err].
  unfold watch_loop.
  apply obeys_iter
    with (Inv := fun j g' => watching key j g'); [|].
  - intros j g1 Hj. eapply obeys_weaken; [apply watch_step_watcher, Hj|].
    intros [j'|[]] g2 H; [exact H|exact I].
  - unfold watching in *. cbn. exact Hw.
Qed.

(* ================================================================== *)
(** * What a trace that keeps to a rule shows *)

Lemma voter_rule_counts key value term g tr g' :
  follows (voter_rule key value term) g tr g' ->
  (List.length (writes tr) + pending g' <= List.length (reads tr) + pending g)%nat
  /\ Forall (fun w => fst (fst w) = key /\ snd (fst w) = value) (writes tr).
Proof.
  induction 1 as [g|g ev g1 tr g2 Hr Hf [IHn IHw]].
  - split; [cbn; lia|constructor].
  - destruct ev as [X e x]. destruct e; cbn in Hr |- *;
      try (subst g1; split; assumption); try contradiction.
    + destruct Hr as [_ ->]. split; [|exact IHw].
      destruct g; cbn in *; lia.
    + destruct Hr as (-> & -> & -> & Hl). split.
      * destruct g as [r|]; [|contradiction]. cbn in *. lia.
      * constructor; [split; reflexivity|exact IHw].
    + destruct Hr as [_ ->]. split; assumption.
Qed.

Lemma ticker_rule_tickers period early g tr g' :
  follows (ticker_rule period early) g tr g' ->
  Forall (fun d => d = period) (tickers tr)
  /\ (List.length (tickers tr) <= unmade g)%nat
  /\ sleeps tr = [] /\ sends tr = [].
Proof.
  induction 1 as [g|g ev g1 tr g2 Hr Hf (IHd & IHn & IHs & IHv)].
  - repeat split; [constructor|cbn; lia].
  - destruct ev as [X e x]. destruct e; cbn in Hr; try contradiction;
      cbn [tickers sleeps sends].
    + destruct Hr as [_ ->]. auto.
    + destruct Hr as [_ ->]. auto.
    + destruct Hr as [_ ->]. auto.
    + destruct Hr as (-> & -> & ->). cbn in *.
      repeat split; try assumption; [constructor; [reflexivity|assumption]|lia].
    + destruct Hr as [[-> | [_ ->]] ->]; cbn in *;
        repeat split; try assumption; lia.
    + destruct Hr as [_ ->]. auto.
    + destruct Hr as [-> ->]. destruct x; cbn in *; repeat split; try assumption; lia.
Qed.

Lemma watcher_rule_writes key g tr g' :
  follows (watcher_rule key) g tr g' -> writes tr = [].
Proof.
  induction 1 as [g|g ev g1 tr g2 Hr Hf IH]; [reflexivity|].
  destruct ev as [X e x]. destruct e; cbn in Hr |- *;
    try contradiction; exact IH.
Qed.

Lemma subseq_with_held {A} (s : list A) h l :
  subseq s l -> subseq s (match h with Some v => v :: l | None => l end).
Proof. intros H. destruct h; [apply subseq_skip|]; exact H. Qed.

Lemma watcher_rule_sends key g tr g' :
  follows (watcher_rule key) g tr g' ->
  subseq (sends tr) (with_held (held g) (replied tr)).
Proof.
  induction 1 as [g|g ev g1 tr g2 Hr Hf IH].
  - cbn. apply subseq_nil.
  - destruct ev as [X e x]. destruct e; cbn in Hr; try contradiction;
      try (subst g1; cbn [sends replied]; exact IH).
    + destruct Hr as [_ ->]. destruct x as [resp|e]; cbn [sends replied] in *.
      * apply subseq_with_held. exact IH.
      * apply subseq_with_held. exact IH.
    + destruct Hr as (_ & _ & ->). destruct x as [resp|e]; cbn [sends replied] in *.
      * apply subseq_with_held. exact IH.
      * apply subseq_with_held. exact IH.
    + destruct Hr as [Hh ->]. rewrite Hh. cbn [with_held held] in *.
      destruct x; cbn [sends replied].
      * apply subseq_take. exact IH.
      * apply subseq_skip. exact IH.
Qed.

(* ================================================================== *)
(** * The ways through [elect] and through a turn of the watcher *)

Lemma stale_lease term expiration now :
  time.is_Duration term -> expiration - now <= time.div term 2 ->
  (time.div term 2 <? time.Sub expiration now) = false.
Proof.
  intros Ht H. pose proof (div2_bounds Ht) as Hb.
  apply Z.ltb_ge. unfold time.Sub, time.minDuration, time.maxDuration in *.
  destruct (Z.ltb_spec (expiration - now) (- 2 ^ 63)); [lia|].
  destruct (Z.ltb_spec (2 ^ 63 - 1) (expiration - now)); lia.
Qed.

Lemma on_error_canceled key retry e v :
  canceled e = true ->
  on_error key retry e v = (log LogClosing;; Ret (inr tt)).
Proof.
  destruct e as [|errs|code|msg|msg|e']; cbn; try discriminate; [reflexivity|].
  destruct errs as [|[] errs]; cbn; try discriminate. reflexivity.
Qed.

Lemma on_error_cluster key retry errs v :
  canceled (ClusterError errs) = false ->
  on_error key retry (ClusterError errs) v
  = (log (LogClusterError (ClusterError errs));; Ret (inl v)).
Proof.
  destruct errs as [|[] errs]; cbn; try discriminate; reflexivity.
Qed.

(* ================================================================== *)
(** * When the goroutines return *)

Lemma getFirstValue_closes key retry g :
  obeys closing_rule g (getFirstValue key retry) (fun p _ => snd p = None).
Proof.
  unfold getFirstValue.
  obey_call u; [rule_ok|].
  apply obeys_bind with (Q1 := fun p (_ : bool) => snd p = None);
    [|intros p g1 Hp; obey].
  unfold getFirstValue_loop.
  apply obeys_iter with (Inv := fun _ _ => True); [|exact I].
  intros [] g1 _. unfold getFirstValue_step.
  obey_call r; [rule_ok|].
  destruct r as [resp|e]; [obey|].
  destruct (negb (IsNotFound e)); unfold log.
  - obey_call u'; [rule_ok|].
    obey_call c; [rule_ok|].
    destruct c; obey.
  - apply obeys_ret_bind.
    obey_call c; [rule_ok|].
    destruct c; obey.
Qed.

Lemma resetWatch_closes key retry v g :
  obeys closing_rule g (resetWatch key retry v) (fun p _ => fst p = None).
Proof.
  unfold resetWatch.
  eapply obeys_bind; [apply getFirstValue_closes|].
  intros [re0 err0] g1 He. cbn [fst snd] in He. subst err0.
  cbn [fst snd set_re_err err re].
  destruct re0 as [r|]; unfold log; obey.
Qed.

Lemma send_value_closes v g :
  obeys closing_rule g (send_value v)
    (fun lr g' => match lr with inl _ => True | inr _ => g' = true end).
Proof.
  unfold send_value. destruct (re v) as [r|]; [|obey].
  obey_call c; [rule_ok|].
  destruct c; obey.
Qed.

Lemma unknown_error_closes key retry e v g :
  obeys closing_rule g (unknown_error key retry e v)
    (fun lr g' => match lr with inl _ => True | inr _ => g' = true end).
Proof.
  unfold unknown_error, log.
  obey_call u; [rule_ok|].
  destruct (10 <? Backoff.Tries (backoff v)).
  - apply obeys_bind_bind.
    eapply obeys_bind; [apply resetWatch_closes|].
    intros p g1 _. obey.
  - obey.
Qed.

Lemma on_error_closes key retry e v :
  obeys closing_rule (canceled e) (on_error key retry e v)
    (fun lr g' => match lr with inl _ => True | inr _ => g' = true end).
Proof.
  destruct e as [|errs|code|msg|msg|e']; cbn [on_error];
    try (apply unknown_error_closes).
  - unfold log. obey.
  - unfold log. destruct errs as [|[] errs]; obey.
  - destruct (code =? ErrorCodeEventIndexCleared);
      [|apply unknown_error_closes].
    unfold log. obey_call u; [rule_ok|].
    eapply obeys_bind; [apply resetWatch_closes|].
    intros [e1 v1] g1 He. cbn [fst snd] in *. subst e1.
    unfold after_reset. cbn [fst snd set_err err].
    apply send_value_closes.
Qed.

Lemma watch_step_closes key retry v g :
  obeys closing_rule g (watch_step key retry v)
    (fun lr g' => match lr with inl _ => True | inr _ => g' = true end).
Proof.
  unfold watch_step.
  destruct (watcher v) as [w|]; [|obey].
  obey_call r; [rule_ok|].
  destruct r as [resp|e].
  - cbn zeta. destruct (Value (RNode resp) =? "")%string; unfold log.
    + obey.
    + obey_call u; [rule_ok|]. apply send_value_closes.
  - cbn zeta.
    match goal with
    | |- context [if ?c then _ else _] => destruct c
    end; unfold log.
    + apply obeys_bind_bind. obey_call u; [rule_ok|].
      obey_call u'; [rule_ok|].
      apply on_error_closes.
    + apply obeys_ret_bind. apply on_error_closes.
Qed.

Lemma AddWatch_closes key retry :
  obeys closing_rule false (AddWatch key retry) (fun _ g => g = true).
Proof.
  unfold AddWatch.
  eapply obeys_bind; [apply resetWatch_closes|].
  intros [e v] g He. cbn [fst snd] in *. subst e.
  cbn [set_err err].
  unfold watch_loop.
  apply obeys_iter with (Inv := fun _ _ => True); [|exact I].
  intros j g1 _. eapply obeys_weaken; [apply watch_step_closes|].
  intros [j'|[]] g2 H; [exact I|exact H].
Qed.

Lemma closing_rule_last g tr g' :
  follows closing_rule g tr g' -> g' = true ->
  (g = true /\ forallb quiet_event tr = true)
  \/ exists before ev after,
       tr = before ++ ev :: after
       /\ close_event ev = true /\ forallb quiet_event after = true.
Proof.
  induction 1 as [g|g ev g1 tr g2 Hr Hf IH]; intros Hg'.
  - left. split; [exact Hg'|reflexivity].
  - specialize (IH Hg'). destruct IH as [[Hg1 Hq]|(before & ev' & after & -> & Hc & Hq)].
    + subst g1. destruct ev as [X e x].
      destruct e; cbn in Hr; try discriminate.
      * right. exists [], (Evt (Next w) x), tr. repeat split; [|exact Hq].
        destruct x; [discriminate|]. cbn. symmetry. exact Hr.
      * left. split; [symmetry; exact Hr|exact Hq].
      * left. split; [symmetry; exact Hr|exact Hq].
      * right. exists [], (Evt (SelectSend v) x), tr. repeat split; [|exact Hq].
        destruct x; [discriminate|reflexivity].
    + right. exists (ev :: before), ev', after. repeat split; assumption.
Qed.

Lemma ticker_rule_last period g tr g' :
  follows (ticker_rule period false) g tr g' -> g' = Stopped ->
  g = Stopped /\ tr = []
  \/ (g = Closing
      /\ exists logs,
           tr = logs ++ [Evt TickerStop tt] /\ forallb quiet_event logs = true)
  \/ exists before logs,
       tr = before ++ Evt SelectTick Closed :: logs ++ [Evt TickerStop tt]
       /\ forallb quiet_event logs = true.
Proof.
  induction 1 as [g|g ev g1 tr g2 Hr Hf IH]; intros Hg'.
  - left. split; [exact Hg'|reflexivity].
  - specialize (IH Hg').
    destruct IH as [[Hg1 ->]|[[Hg1 (logs & -> & Hq)]|(before & logs & -> & Hq)]].
    + subst g1. destruct ev as [X e x].
      destruct e; cbn in Hr; try contradiction;
        try (destruct Hr as [[H|H] H']; congruence);
        try (destruct Hr as [H H']; congruence).
      * destruct Hr as (_ & _ & H). discriminate H.
      * destruct Hr as [[->|[H _]] _]; [|discriminate H].
        right. left. split; [reflexivity|]. exists []. destruct x. split; reflexivity.
      * destruct Hr as [_ H]. destruct x; discriminate H.
    + subst g1. destruct ev as [X e x].
      destruct e; cbn in Hr; try contradiction;
        try (destruct Hr as [[H|H] H']; congruence).
      * destruct Hr as (_ & _ & H). discriminate H.
      * destruct Hr as [_ ->]. right. left. split; [reflexivity|].
        exists (Evt (Log l) x :: logs). split; [reflexivity|exact Hq].
      * destruct Hr as [_ H]. destruct x; [discriminate H|].
        right. right. exists [], logs. split; [reflexivity|exact Hq].
    + right. right. exists (ev :: before), logs. split; [reflexivity|exact Hq].
Qed.

Lemma ticker_rule_early period s ev s' :
  ticker_rule period false s ev s' -> ticker_rule period true s ev s'.
Proof.
  destruct ev as [X e x]. destruct e; cbn; try exact (fun H => H).
  intros [H H']. destruct H as [H|[H _]]; [|discriminate H].
  split; [left; exact H|exact H'].
Qed.

Lemma voter_life_ticker period g tr g' :
  follows (voter_life period) g tr g' ->
  follows (ticker_rule period true)
    match g with Some s => s | None => Stopped end tr
    match g' with Some s => s | None => Stopped end.
Proof.
  induction 1 as [g|g ev g1 tr g2 Hr Hf IH]; [constructor|].
  econstructor; [|exact IH]. clear IH Hf.
  destruct ev as [X e x]. destruct e; cbn [voter_life] in Hr;
    try (destruct Hr as (s & s' & -> & -> & Hr);
         exact (@ticker_rule_early period s _ s' Hr)).
  destruct Hr as [[-> ->]|[-> ->]]; cbn; (split; [|reflexivity]).
  - left. reflexivity.
  - right. split; reflexivity.
Qed.

Lemma voter_life_alive period g tr g' :
  follows (voter_life period) g tr g' ->
  forall s', g' = Some s' ->
  exists s, g = Some s /\ follows (ticker_rule period false) s tr s'.
Proof.
  induction 1 as [g|g ev g1 tr g2 Hr Hf IH]; intros s' Hs'.
  - exists s'. split; [exact Hs'|constructor].
  - destruct (IH s' Hs') as (s1 & -> & Hf1).
    destruct ev as [X e x]. destruct e; cbn [voter_life] in Hr;
      try (destruct Hr as (s & s2 & -> & E & Hr); inversion E; subst s2;
           exists s; split; [reflexivity|]; econstructor; [exact Hr|exact Hf1]).
    destruct Hr as [[-> E]|[_ E]]; [|discriminate E].
    inversion E; subst s1.
    exists Closing. split; [reflexivity|].
    econstructor; [|exact Hf1]. cbn. split; [left; reflexivity|reflexivity].
Qed.

Lemma resetWatch_result key retry v g :
  obeys closing_rule g (resetWatch key retry v)
    (fun p _ =>
       fst p = None /\ err (snd p) = None
       /\ match re (snd p) with
          | Some r =>
              watcher (snd p)
              = Some {| WatchKey := key; AfterIndex := ModifiedIndex (RNode r) |}
          | None => watcher (snd p) = watcher v
          end).
Proof.
  unfold resetWatch.
  eapply obeys_bind; [apply getFirstValue_closes|].
  intros [re0 err0] g1 He. cbn [fst snd] in He. subst err0.
  cbn [fst snd set_re_err err re].
  destruct re0 as [r|]; unfold log; obey.
Qed.

(* ================================================================== *)
(** * The callback goroutine *)

Lemma callback_loop_chain key : forall rs prev,
  callback_loop key prev rs = (chain key prev (taken rs), sees_close rs).
Proof.
  induction rs as [|[val|] rs IH]; intros prev; cbn [callback_loop taken sees_close];
    try reflexivity.
  rewrite IH. reflexivity.
Qed.

Lemma taken_values vs tail :
  taken (map FromValuesC vs ++ tail) = vs ++ taken tail.
Proof. induction vs as [|v vs IH]; cbn; [reflexivity|]. rewrite IH. reflexivity. Qed.

Lemma sees_close_values vs tail :
  sees_close (map FromValuesC vs ++ tail) = sees_close tail.
Proof. induction vs as [|v vs IH]; cbn; [reflexivity|exact IH]. Qed.

Lemma chain_new_values key : forall vals prev,
  map snd (chain key prev vals) = vals.
Proof.
  unfold chain. induction vals as [|v vals IH]; intros prev; cbn; [reflexivity|].
  f_equal. apply IH.
Qed.

(* ================================================================== *)
(** * The user cgroup of a process *)

Lemma Split_cons s sep : exists h t, strings.Split s sep = h :: t.
Proof.
  induction s as [|c s (h & t & IH)]; cbn.
  - eauto.
  - destruct (Ascii.eqb c sep); [eauto|]. rewrite IH. eauto.
Qed.

Lemma Split_first a sep b :
  strings.Contains a sep = false ->
  strings.Split (a ++ String sep b)%string sep = a :: strings.Split b sep.
Proof.
  induction a as [|c a IH]; cbn; intros H.
  - rewrite Ascii.eqb_refl. reflexivity.
  - apply orb_false_iff in H. destruct H as [Hc Ha].
    rewrite Hc, (IH Ha). reflexivity.
Qed.

Lemma Split_none a sep :
  strings.Contains a sep = false -> strings.Split a sep = [a].
Proof.
  induction a as [|c a IH]; cbn; intros H; [reflexivity|].
  apply orb_false_iff in H. destruct H as [Hc Ha].
  rewrite Hc, (IH Ha). reflexivity.
Qed.

Lemma HasPrefix_mount p :
  strings.HasPrefix p "/sys/fs/cgroup/" = true ->
  exists rest, p = ("/sys/fs/cgroup/" ++ rest)%string.
Proof.
  unfold strings.HasPrefix. intros H.
  do 15 (destruct p as [|? p]; [discriminate H|];
         cbn [String.prefix] in H;
         match type of H with
         | (if ?d then _ else _) = true =>
             destruct d as [<-|]; [|discriminate H]
         end).
  exists p. reflexivity.
Qed.

Lemma HasPrefix_mount_intro rest :
  strings.HasPrefix ("/sys/fs/cgroup/" ++ rest)%string "/sys/fs/cgroup/" = true.
Proof.
  unfold strings.HasPrefix. apply String.prefix_correct. cbn.
  destruct rest; reflexivity.
Qed.

Lemma Split_mount rest :
  strings.Split ("/sys/fs/cgroup/" ++ rest)%string strings.slash
  = "" :: "sys" :: "fs" :: "cgroup" :: strings.Split rest strings.slash.
Proof.
  destruct (Split_cons rest strings.slash) as (h & t & E).
  cbn. rewrite E. reflexivity.
Qed.

(* ================================================================== *)
(** * The goroutines over their whole life *)

(** X1.  Every run of the voter goroutine, cut off anywhere and whatever
    the store, the clock and the ticker reply, keeps to the rule of a
    voter: it reads only its key; each write is of its value to its key,
    follows a read that no other write has followed, and is the
    create-if-absent when that read found no key, or the compare-and-swap
    on the index that read returned when it found the voter's value; it
    never watches, sleeps or sends. *)
Theorem voter_keeps_to_its_rule (key value : string) (term : time.Duration)
    (fuel : nat) (script : list reply) :
  exists last,
    follows (voter_rule key value term) None
      (trace (run fuel (voter key value term) script)) last.
Proof.
  destruct (@voter_obeys key value term fuel script) as (last & Hf & _).
  exists last. exact Hf.
Qed.

(** X2.  In every run of the voter goroutine there are at most as many
    writes as reads, and every write is of the voter's value to the
    voter's key. *)
Theorem voter_writes_follow_reads (key value : string) (term : time.Duration)
    (fuel : nat) (script : list reply) :
  let tr := trace (run fuel (voter key value term) script) in
  (List.length (writes tr) <= List.length (reads tr))%nat
  /\ Forall (fun w => fst (fst w) = key /\ snd (fst w) = value) (writes tr).
Proof.
  cbv zeta.
  destruct (@voter_obeys key value term fuel script) as (last & Hf & _).
  destruct (voter_rule_counts Hf) as [Hn Hw].
  split; [cbn [pending] in Hn; lia|exact Hw].
Qed.


(** X4.  The goroutine of an accepted [AddVoter] makes at most one
    ticker, and its period is positive: [time.NewTicker] is never called
    with a period it panics on. *)
Theorem AddVoter_ticker_positive (key value : string) (term : time.Duration)
    (g : itree leaderE unit) (fuel : nat) (script : list reply) :
  AddVoter key value term = (None, Some g) ->
  (List.length (tickers (trace (run fuel g script))) <= 1)%nat
  /\ Forall (fun d => 0 < d) (tickers (trace (run fuel g script))).
Proof.
  unfold AddVoter. destruct (value =? "")%string; [discriminate|].
  destruct (Z.ltb_spec term time.Second) as [|Ht]; [discriminate|].
  intros H. inversion H; subst g. clear H.
  destruct (@voter_lives key value term fuel script) as (g & Hf & _).
  destruct (ticker_rule_tickers (voter_life_ticker Hf)) as (Hd & Hn & _).
  split; [exact Hn|].
  eapply Forall_impl; [|exact Hd]. cbn beta. intros d ->.
  unfold time.div, time.Second in *.
  assert (1 <= Z.quot term 5); [|lia].
  apply Z.quot_le_lower_bound; lia.
Qed.

Lemma AddVoter_ticker_positive_witness :
  AddVoter master "A" term5s = (None, Some (voter master "A" term5s))
  /\ Forall (fun d => 0 < d)
       (tickers (trace (run 20 (voter master "A" term5s)
                          [RGet (Ok leaseB); RSelect Closed]))).
Proof.
  assert (H : AddVoter master "A" term5s
              = (None, Some (voter master "A" term5s))) by reflexivity.
  split; [exact H|].
  exact (proj2 (@AddVoter_ticker_positive master "A" term5s _ 20%nat
                  [RGet (Ok leaseB); RSelect Closed] H)).
Defined.


(** X6.  [getFirstValue] only reads: no run of it writes to the store,
    sleeps, or sends on the stream of values. *)
Theorem getFirstValue_only_reads (key : string) (retryPeriod : time.Duration)
    (fuel : nat) (script : list reply) :
  let tr := trace (run fuel (getFirstValue key retryPeriod) script) in
  writes tr = [] /\ sleeps tr = [] /\ sends tr = [].
Proof.
  cbv zeta.
  destruct (@getFirstValue_ticker key retryPeriod fuel script) as (g & Hf & _).
  destruct (@getFirstValue_watcher key retryPeriod (mkNote None None) fuel script)
    as (g' & Hf' & _).
  destruct (ticker_rule_tickers Hf) as (_ & _ & Hs & Hv).
  split; [exact (watcher_rule_writes Hf')|]. split; assumption.
Qed.

(** X7.  Every run of the watcher goroutine, cut off anywhere and
    whatever the store and the receiver do, keeps to the rule of a
    watcher: it reads its key only; every [watcher.Next] is on a watcher
    of that key made after the [ModifiedIndex] of the last successful
    read; a value is offered on the stream only when it is the value of
    the reply just received, and that reply is offered once; the
    goroutine never writes and never asks the time. *)
Theorem watcher_keeps_to_its_rule (key : string) (retry : time.Duration)
    (fuel : nat) (script : list reply) :
  exists g,
    follows (watcher_rule key) (mkNote None None)
      (trace (run fuel (AddWatch key retry) script)) g.
Proof.
  destruct (@AddWatch_watcher key retry fuel script) as (g & Hf & _).
  exists g. exact Hf.
Qed.

(** X8.  The values a watcher has had taken from it are, in order, among
    the values the store replied to its reads and watches, each reply
    counted once; and the watcher writes nothing. *)
Theorem watcher_sends_what_store_replied (key : string) (retry : time.Duration)
    (fuel : nat) (script : list reply) :
  let tr := trace (run fuel (AddWatch key retry) script) in
  subseq (sends tr) (replied tr) /\ writes tr = [].
Proof.
  cbv zeta.
  destruct (@AddWatch_watcher key retry fuel script) as (g & Hf & _).
  split; [exact (watcher_rule_sends Hf)|exact (watcher_rule_writes Hf)].
Qed.

(* ================================================================== *)
(** * The ways through [elect] *)

(** X9.  When [elect] reads its own value with an expiration at most
    [term/2] after the clock's now, [term/2] itself included, it makes
    one write, the compare-and-swap on its value and on the index read,
    with the term as TTL; it returns nil when the store accepts the
    write, and the wrapped error of the store when it does not. *)
Theorem elect_renews_stale_lease (key value : string) (term : time.Duration)
    (resp : Response) (expiration now : time.Time) (r : result)
    (fuel : nat) (script : list reply) :
  time.is_Duration term ->
  Value (RNode resp) = value ->
  Expiration (RNode resp) = Some expiration ->
  expiration - now <= time.div term 2 ->
  let res := run (5 + fuel) (elect key value term)
               (RGet (Ok resp) :: RNow now :: RSet r :: script) in
  writes (trace res) = [(key, value, extend_options value term resp)]
  /\ out res = Returned match r with
                       | Ok _ => None
                       | Err e => Some (Wrap e)
                       end
  /\ rest res = script.
Proof.
  intros Ht Hv He Hle. cbv zeta.
  pose proof (stale_lease _ _ Ht Hle) as Hs.
  apply String.eqb_eq in Hv.
  unfold elect, elect_under. cbn [Nat.add]. run_steps. rewrite Hv. cbn [negb].
  run_steps. rewrite He, Hs. run_steps.
  destruct r; run_steps; cbn; repeat split; reflexivity.
Qed.

Lemma elect_renews_stale_lease_witness :
  time.is_Duration term5s
  /\ Value (RNode leaseA) = "A"
  /\ Expiration (RNode leaseA) = Some (9 * time.Second)
  /\ 9 * time.Second - 65 * time.Second / 10 <= time.div term5s 2
  /\ writes (trace (run 5 (elect master "A" term5s)
                      [RGet (Ok leaseA); RNow (65 * time.Second / 10);
                       RSet (Err boom)]))
     = [(master, "A", extend_options "A" term5s leaseA)].
Proof.
  assert (H1 : time.is_Duration term5s) by (vm_compute; split; discriminate).
  assert (H2 : Value (RNode leaseA) = "A") by reflexivity.
  assert (H3 : Expiration (RNode leaseA) = Some (9 * time.Second)) by reflexivity.
  assert (H4 : 9 * time.Second - 65 * time.Second / 10 <= time.div term5s 2)
    by (vm_compute; discriminate).
  repeat (split; [assumption|]).
  exact (proj1 (@elect_renews_stale_lease master "A" term5s leaseA
                  (9 * time.Second) (65 * time.Second / 10) (Err boom)
                  0%nat [] H1 H2 H3 H4)).
Defined.

(** X10.  When [elect] finds no key and the store accepts its
    create-if-absent, that is its only write, it logs that it is elected
    and returns nil. *)
Theorem elect_creates_when_absent (key value : string) (term : time.Duration)
    (e : error) (created : Response) (fuel : nat) (script : list reply) :
  IsNotFound e = true ->
  run (5 + fuel) (elect key value term)
    (RGet (Err e) :: RSet (Ok created) :: script)
  = mkRun [Evt (Log (LogCandidateStart key value term)) tt;
           Evt (Get key) (Err e);
           Evt (Log (LogNotFoundElect key value)) tt;
           Evt (SetKey key value (create_options term)) (Ok created);
           Evt (Log (LogElected key value)) tt]
      (Returned None) script fuel.
Proof.
  intros He. unfold elect, elect_under. cbn [Nat.add]. run_steps. rewrite He. cbn [negb].
  run_steps. reflexivity.
Qed.

Lemma elect_creates_when_absent_witness :
  IsNotFound notFound = true
  /\ out (run 5 (elect master "A" term5s) [RGet (Err notFound); RSet (Ok leaseA)])
     = Returned None.
Proof.
  assert (H : IsNotFound notFound = true) by reflexivity.
  split; [exact H|].
  exact (f_equal (@out _)
           (@elect_creates_when_absent master "A" term5s notFound leaseA
              0%nat [] H)).
Defined.

(** X11.  When the read of [elect] fails with an error that is not "key
    not found", [elect] returns that error wrapped and calls the store no
    more: it writes nothing. *)
Theorem elect_read_error_no_write (key value : string) (term : time.Duration)
    (e : error) (fuel : nat) (script : list reply) :
  IsNotFound e = false ->
  run (2 + fuel) (elect key value term) (RGet (Err e) :: script)
  = mkRun [Evt (Log (LogCandidateStart key value term)) tt;
           Evt (Get key) (Err e)]
      (Returned (Some (Wrap e))) script fuel.
Proof.
  intros He. unfold elect, elect_under. cbn [Nat.add]. run_steps. rewrite He. cbn [negb].
  run_steps. reflexivity.
Qed.

Lemma elect_read_error_no_write_witness :
  IsNotFound boom = false
  /\ out (run 2 (elect master "A" term5s) [RGet (Err boom)])
     = Returned (Some (Wrap boom)).
Proof.
  assert (H : IsNotFound boom = false) by reflexivity.
  split; [exact H|].
  exact (f_equal (@out _)
           (@elect_read_error_no_write master "A" term5s boom 0%nat [] H)).
Defined.

(** X12.  When [elect] reads its own value on a key that has no
    expiration, a key set without TTL, it panics on the nil [Expiration]:
    it neither writes nor returns. *)
Theorem elect_no_expiration_panics (key value : string) (term : time.Duration)
    (resp : Response) (now : time.Time) (fuel : nat) (script : list reply) :
  Value (RNode resp) = value ->
  Expiration (RNode resp) = None ->
  let res := run (4 + fuel) (elect key value term)
               (RGet (Ok resp) :: RNow now :: script) in
  out res = Halted NilDeref /\ writes (trace res) = [].
Proof.
  intros Hv He. cbv zeta. apply String.eqb_eq in Hv.
  unfold elect, elect_under. cbn [Nat.add]. run_steps. rewrite Hv. cbn [negb].
  run_steps. rewrite He. run_steps. split; reflexivity.
Qed.

Lemma elect_no_expiration_panics_witness :
  Value (RNode (mkResponse (mkNode "A" 7 None))) = "A"
  /\ Expiration (RNode (mkResponse (mkNode "A" 7 None))) = None
  /\ out (run 4 (elect master "A" term5s)
            [RGet (Ok (mkResponse (mkNode "A" 7 None))); RNow 0])
     = Halted NilDeref.
Proof.
  assert (H1 : Value (RNode (mkResponse (mkNode "A" 7 None))) = "A")
    by reflexivity.
  assert (H2 : Expiration (RNode (mkResponse (mkNode "A" 7 None))) = None)
    by reflexivity.
  repeat (split; [assumption|]).
  exact (proj1 (@elect_no_expiration_panics master "A" term5s
                  (mkResponse (mkNode "A" 7 None)) 0 0%nat [] H1 H2)).
Defined.

(** X13.  An error [elect] returns is always the wrapped error of a reply
    of the store in that run, to its read or to its write; being wrapped,
    it is recognised neither by [IsNotFound] nor by [IsAlreadyExist]. *)
Theorem elect_error_is_wrapped (key value : string) (term : time.Duration)
    (fuel : nat) (script : list reply) (e : error) :
  out (run fuel (elect key value term) script) = Returned (Some e) ->
  (exists e',
     e = Wrap e'
     /\ (In (Evt (Get key) (Err e'))
            (trace (run fuel (elect key value term) script))
         \/ exists o,
              In (Evt (SetKey key value o) (Err e'))
                (trace (run fuel (elect key value term) script))))
  /\ IsNotFound e = false /\ IsAlreadyExist e = false.
Proof.
  elect_cases; cbn; intros H; try discriminate; inversion H; subst e.
  all: (split; [eexists; split; [reflexivity|]|split; reflexivity]).
  all: first [ left; cbn; tauto
             | right; eexists; cbn; tauto ].
Qed.

Lemma elect_error_is_wrapped_witness :
  out (run 5 (elect master "A" term5s) [RGet (Err notFound); RSet (Err nodeExist)])
  = Returned (Some (Wrap nodeExist))
  /\ IsAlreadyExist (Wrap nodeExist) = false.
Proof.
  assert (H : out (run 5 (elect master "A" term5s)
                     [RGet (Err notFound); RSet (Err nodeExist)])
              = Returned (Some (Wrap nodeExist))) by reflexivity.
  split; [exact H|].
  exact (proj2 (proj2 (@elect_error_is_wrapped master "A" term5s 5%nat
                         [RGet (Err notFound); RSet (Err nodeExist)]
                         (Wrap nodeExist) H))).
Defined.

(* ================================================================== *)
(** * The ways through a turn of the watcher *)

(** X14.  When [watcher.Next] fails with [context.Canceled], or with a
    cluster error whose first error is [context.Canceled], the watcher
    goroutine returns and offers nothing; it still backs off first, log
    and sleep, when this is not its first failed try in a row. *)
Theorem watcher_returns_when_canceled (key : string) (retry : time.Duration)
    (v : watch_vars) (w : Watcher) (e : error)
    (fuel : nat) (script : list reply) :
  watcher v = Some w -> canceled e = true ->
  run (backoff_cost v + 2 + fuel) (watch_loop key retry v)
    (RNext (Err e) :: script)
  = mkRun (Evt (Next w) (Err e) :: backoff_events v ++ [Evt (Log LogClosing) tt])
      (Returned tt) script fuel.
Proof.
  intros Hw Hc.
  replace (backoff_cost v + 2 + fuel)%nat
    with (backoff_cost v + 1 + S fuel)%nat by lia.
  rewrite (watch_loop_error _ _ _ _ _ _ Hw), (@on_error_canceled key retry e _ Hc).
  run_steps. unfold prepend. cbn. f_equal. same_events.
Qed.

Lemma watcher_returns_when_canceled_witness :
  watcher watchingA = Some watcherA
  /\ canceled (ClusterError [ContextCanceled; boom]) = true
  /\ out (run 2 (watch_loop master (1 * time.Second) watchingA)
            [RNext (Err (ClusterError [ContextCanceled; boom]))])
     = Returned tt.
Proof.
  assert (H1 : watcher watchingA = Some watcherA) by reflexivity.
  assert (H2 : canceled (ClusterError [ContextCanceled; boom]) = true)
    by reflexivity.
  repeat (split; [assumption|]).
  exact (f_equal (@out _)
           (@watcher_returns_when_canceled master (1 * time.Second) watchingA
              watcherA (ClusterError [ContextCanceled; boom]) 0%nat [] H1 H2)).
Defined.

(** X15.  On any other cluster error the watcher logs it and goes round
    again with the same watcher, nothing read and nothing offered; the
    failure counts as a try of the backoff. *)
Theorem cluster_error_keeps_watching (key : string) (retry : time.Duration)
    (v : watch_vars) (w : Watcher) (errs : list error)
    (fuel : nat) (script : list reply) :
  watcher v = Some w -> canceled (ClusterError errs) = false ->
  run (backoff_cost v + 3 + fuel) (watch_loop key retry v)
    (RNext (Err (ClusterError errs)) :: script)
  = prepend (Evt (Next w) (Err (ClusterError errs)) :: backoff_events v
             ++ [Evt (Log (LogClusterError (ClusterError errs))) tt])
      (run fuel (watch_loop key retry (failed_vars (ClusterError errs) v)) script)
  /\ watcher (failed_vars (ClusterError errs) v) = Some w
  /\ Backoff.Tries (backoff (failed_vars (ClusterError errs) v))
     = Backoff.Tries (backoff v) + 1.
Proof.
  intros Hw Hc. split; [|split; [exact Hw|reflexivity]].
  replace (backoff_cost v + 3 + fuel)%nat
    with (backoff_cost v + 1 + S (S fuel))%nat by lia.
  rewrite (watch_loop_error _ _ _ _ _ _ Hw), (@on_error_cluster key retry errs _ Hc).
  run_steps. f_equal.
Qed.

Lemma cluster_error_keeps_watching_witness :
  watcher watchingA = Some watcherA
  /\ canceled (ClusterError [boom]) = false
  /\ watcher (failed_vars (ClusterError [boom]) watchingA) = Some watcherA.
Proof.
  assert (H1 : watcher watchingA = Some watcherA) by reflexivity.
  assert (H2 : canceled (ClusterError [boom]) = false) by reflexivity.
  repeat (split; [assumption|]).
  exact (proj1 (proj2 (@cluster_error_keeps_watching master (1 * time.Second)
                         watchingA watcherA [boom] 0%nat [] H1 H2))).
Defined.

(** X16.  When the receiver does not take a value and [l.closeC] is
    chosen instead, the watcher goroutine returns: the value is dropped
    and nothing more is read. *)
Theorem closed_send_returns (key : string) (retry : time.Duration)
    (v : watch_vars) (w : Watcher) (next : Response)
    (fuel : nat) (script : list reply) :
  watcher v = Some w -> Value (RNode next) <> "" ->
  run (3 + fuel) (watch_loop key retry v)
    (RNext (Ok next) :: RSelect Closed :: script)
  = mkRun [Evt (Next w) (Ok next);
           Evt (Log (LogGot key (Value (RNode next)))) tt;
           Evt (SelectSend (Value (RNode next))) Closed]
      (Returned tt) script fuel.
Proof.
  intros Hw Hv. apply String.eqb_neq in Hv.
  rewrite watch_loop_eq. unfold watch_step. rewrite Hw. cbn [Nat.add].
  run_steps. rewrite Hv. run_steps. unfold send_value. cbn [re set_backoff set_re_err].
  run_steps. reflexivity.
Qed.

Lemma closed_send_returns_witness :
  watcher watchingA = Some watcherA
  /\ Value (RNode leaseB) <> ""
  /\ sends (trace (run 3 (watch_loop master (1 * time.Second) watchingA)
                     [RNext (Ok leaseB); RSelect Closed]))
     = [].
Proof.
  assert (H1 : watcher watchingA = Some watcherA) by reflexivity.
  assert (H2 : Value (RNode leaseB) <> "") by discriminate.
  repeat (split; [assumption|]).
  exact (f_equal (fun r => sends (trace r))
           (@closed_send_returns master (1 * time.Second) watchingA watcherA
              leaseB 0%nat [] H1 H2)).
Defined.

(** X17.  A value that is not empty and is taken sets the backoff back:
    whatever the count of failed tries was before, the next failure of
    [watcher.Next] is the first try again and is not slept on. *)
Theorem value_resets_backoff (key : string) (retry : time.Duration)
    (v : watch_vars) (w : Watcher) (next : Response) (e : error)
    (fuel : nat) (script : list reply) :
  watcher v = Some w -> Value (RNode next) <> "" -> unknown e = true ->
  run (7 + fuel) (watch_loop key retry v)
    (RNext (Ok next) :: RSelect Fired :: RNext (Err e) :: script)
  = prepend [Evt (Next w) (Ok next);
             Evt (Log (LogGot key (Value (RNode next)))) tt;
             Evt (SelectSend (Value (RNode next))) Fired;
             Evt (Next w) (Err e);
             Evt (Log (LogUnexpectedWatch e)) tt]
      (run fuel
         (watch_loop key retry
            (failed_vars e
               (mkVars (Some w) (Some next) None (Backoff.Reset (backoff v)))))
         script).
Proof.
  intros Hw Hv Hu.
  change (7 + fuel)%nat with (4 + (3 + fuel))%nat.
  rewrite (@watch_loop_value key retry v w next (3 + fuel) _ Hw Hv).
  assert (Hb : (1 <? Backoff.Tries
                       (snd (Backoff.Delay (Backoff.Reset (backoff v))))) = false)
    by reflexivity.
  pose proof (@unknown_quiet key retry
                (mkVars (Some w) (Some next) None (Backoff.Reset (backoff v)))
                w e fuel script eq_refl Hu) as Hq.
  unfold backoff_cost, backoff_events in Hq. cbn [backoff] in Hq.
  rewrite Hb in Hq. cbn [Nat.add app] in Hq |- *.
  rewrite Hq; [|cbn; lia].
  rewrite prepend_prepend. reflexivity.
Qed.

Lemma value_resets_backoff_witness :
  watcher (storm_vars [boom; boom; boom] watchingA) = Some watcherA
  /\ Value (RNode leaseB) <> ""
  /\ unknown boom = true
  /\ sleeps (trace (run 7 (watch_loop master (1 * time.Second)
                             (storm_vars [boom; boom; boom] watchingA))
                     [RNext (Ok leaseB); RSelect Fired; RNext (Err boom)]))
     = [].
Proof.
  assert (H1 : watcher (storm_vars [boom; boom; boom] watchingA) = Some watcherA)
    by reflexivity.
  assert (H2 : Value (RNode leaseB) <> "") by discriminate.
  assert (H3 : unknown boom = true) by reflexivity.
  repeat (split; [assumption|]).
  exact (f_equal (fun r => sleeps (trace r))
           (@value_resets_backoff master (1 * time.Second)
              (storm_vars [boom; boom; boom] watchingA) watcherA
              leaseB boom 0%nat [] H1 H2 H3)).
Defined.

(** X18.  An event with the empty value is skipped before the backoff is
    set back: after failed tries, a failure of [watcher.Next] that comes
    after an empty event is slept on like the one after a failure. *)
Theorem empty_value_keeps_backoff (key : string) (retry : time.Duration)
    (v : watch_vars) (w : Watcher) (next : Response) (e : error)
    (fuel : nat) (script : list reply) :
  watcher v = Some w -> Value (RNode next) = "" -> unknown e = true ->
  1 <= Backoff.Tries (backoff v) < 10 ->
  run (8 + fuel) (watch_loop key retry v)
    (RNext (Ok next) :: RNext (Err e) :: script)
  = prepend [Evt (Next w) (Ok next);
             Evt (Log (LogSkipEmpty key)) tt;
             Evt (Next w) (Err e);
             Evt (Log (LogBackingOff (fst (Backoff.Delay (backoff v))))) tt;
             Evt (Sleep (fst (Backoff.Delay (backoff v)))) tt;
             Evt (Log (LogUnexpectedWatch e)) tt]
      (run fuel
         (watch_loop key retry
            (failed_vars e (mkVars (Some w) (Some next) None (backoff v))))
         script).
Proof.
  intros Hw Hv Hu Ht.
  change (8 + fuel)%nat with (3 + (5 + fuel))%nat.
  rewrite (@watch_loop_empty key retry v w next (5 + fuel) _ Hw Hv).
  assert (Hb : (1 <? Backoff.Tries (snd (Backoff.Delay (backoff v)))) = true).
  { apply Z.ltb_lt. cbn. lia. }
  pose proof (@unknown_quiet key retry
                (mkVars (Some w) (Some next) None (backoff v))
                w e fuel script eq_refl Hu) as Hq.
  unfold backoff_cost, backoff_events in Hq. cbn [backoff] in Hq.
  rewrite Hb in Hq. cbn [Nat.add app] in Hq |- *.
  rewrite Hq; [|cbn; lia].
  rewrite prepend_prepend. reflexivity.
Qed.

Lemma empty_value_keeps_backoff_witness :
  watcher (storm_vars [boom; boom] watchingA) = Some watcherA
  /\ Value (RNode emptied) = ""
  /\ unknown boom = true
  /\ 1 <= Backoff.Tries (backoff (storm_vars [boom; boom] watchingA)) < 10
  /\ List.length
       (sleeps (trace (run 8 (watch_loop master (1 * time.Second)
                                (storm_vars [boom; boom] watchingA))
                        [RNext (Ok emptied); RNext (Err boom)])))
     = 1%nat.
Proof.
  assert (H1 : watcher (storm_vars [boom; boom] watchingA) = Some watcherA)
    by reflexivity.
  assert (H2 : Value (RNode emptied) = "") by reflexivity.
  assert (H3 : unknown boom = true) by reflexivity.
  assert (H4 : 1 <= Backoff.Tries (backoff (storm_vars [boom; boom] watchingA)) < 10)
    by (vm_compute; split; [discriminate|reflexivity]).
  repeat (split; [assumption|]).
  exact (f_equal (fun r => List.length (sleeps (trace r)))
           (@empty_value_keeps_backoff master (1 * time.Second)
              (storm_vars [boom; boom] watchingA) watcherA
              emptied boom 0%nat [] H1 H2 H3 H4)).
Defined.

(* ================================================================== *)
(** * When the goroutines return *)

(** X19.  The voter goroutine returns only on the close of [l.closeC]:
    a run that returned ends with the select that chose the close, the
    log of it, and the stop of the ticker; no call of the store lies
    between the close and the return. *)
Theorem voter_returns_only_on_close (key value : string) (term : time.Duration)
    (fuel : nat) (script : list reply) :
  out (run fuel (voter key value term) script) = Returned tt ->
  exists before logs,
    trace (run fuel (voter key value term) script)
    = before ++ Evt SelectTick Closed :: logs ++ [Evt TickerStop tt]
    /\ forallb quiet_event logs = true.
Proof.
  intros Hret.
  destruct (@voter_lives key value term fuel script) as (g & Hf & Hr).
  specialize (Hr tt Hret).
  destruct (voter_life_alive Hf Hr) as (s & Hs & Hf').
  inversion Hs; subst s.
  destruct (ticker_rule_last Hf' eq_refl) as [[H _]|[[H _]|H]];
    [discriminate H|discriminate H|exact H].
Qed.

Lemma voter_returns_only_on_close_witness :
  out (run 20 (voter master "A" term5s) [RGet (Ok leaseB); RSelect Closed])
  = Returned tt
  /\ exists before logs,
       trace (run 20 (voter master "A" term5s) [RGet (Ok leaseB); RSelect Closed])
       = before ++ Evt SelectTick Closed :: logs ++ [Evt TickerStop tt]
       /\ forallb quiet_event logs = true.
Proof.
  assert (H : out (run 20 (voter master "A" term5s)
                     [RGet (Ok leaseB); RSelect Closed]) = Returned tt)
    by reflexivity.
  split; [exact H|].
  exact (@voter_returns_only_on_close master "A" term5s 20%nat
           [RGet (Ok leaseB); RSelect Closed] H).
Defined.

(** X26.  When [elect] panics during a tick of the voter goroutine, on
    its own value with a nil [Expiration], the deferred [Stop] of the
    ticker is the last call the goroutine makes before it dies; a panic
    of the first [elect], before the ticker is made and its [Stop]
    deferred, stops nothing. *)
Theorem voter_panic_stops_ticker (key value : string) (term : time.Duration)
    (resp : Response) (now : time.Time) (fuel : nat) (script : list reply) :
  Value (RNode resp) = value ->
  Expiration (RNode resp) = None ->
  run (6 + fuel) (voter_loop key value term)
    (RSelect Fired :: RGet (Ok resp) :: RNow now :: script)
  = mkRun [Evt SelectTick Fired;
           Evt (Log (LogCandidateStart key value term)) tt;
           Evt (Get key) (Ok resp);
           Evt UtcNow now;
           Evt TickerStop tt]
      (Halted NilDeref) script fuel
  /\ run (4 + fuel) (voter key value term)
       (RGet (Ok resp) :: RNow now :: script)
     = mkRun [Evt (Log (LogCandidateStart key value term)) tt;
              Evt (Get key) (Ok resp);
              Evt UtcNow now]
         (Halted NilDeref) script fuel.
Proof.
  intros Hv He. apply String.eqb_eq in Hv. split.
  - rewrite voter_loop_eq. unfold voter_step, elect_under. cbn [Nat.add].
    run_steps. rewrite Hv. cbn [negb]. run_steps. rewrite He. run_steps.
    reflexivity.
  - unfold voter, elect, elect_under. cbn [Nat.add].
    run_steps. rewrite Hv. cbn [negb]. run_steps. rewrite He. run_steps.
    reflexivity.
Qed.

Lemma voter_panic_stops_ticker_witness :
  Value (RNode (mkResponse (mkNode "A" 7 None))) = "A"
  /\ Expiration (RNode (mkResponse (mkNode "A" 7 None))) = None
  /\ trace (run 6 (voter_loop master "A" term5s)
              [RSelect Fired; RGet (Ok (mkResponse (mkNode "A" 7 None))); RNow 0])
     = [Evt SelectTick Fired;
        Evt (Log (LogCandidateStart master "A" term5s)) tt;
        Evt (Get master) (Ok (mkResponse (mkNode "A" 7 None)));
        Evt UtcNow 0;
        Evt TickerStop tt].
Proof.
  assert (H1 : Value (RNode (mkResponse (mkNode "A" 7 None))) = "A")
    by reflexivity.
  assert (H2 : Expiration (RNode (mkResponse (mkNode "A" 7 None))) = None)
    by reflexivity.
  repeat (split; [assumption|]).
  exact (f_equal (@trace _)
           (proj1 (@voter_panic_stops_ticker master "A" term5s
                     (mkResponse (mkNode "A" 7 None)) 0 0%nat [] H1 H2))).
Defined.

(** X20.  The watcher goroutine returns only on a close: in a run that
    returned, the last call that is not a log or the sleep of the
    backoff is a [watcher.Next] that failed with a cancelled context, or
    a send that [l.closeC] won.  It does not return because a read or a
    watch failed otherwise. *)
Theorem watcher_returns_only_on_close (key : string) (retry : time.Duration)
    (fuel : nat) (script : list reply) :
  out (run fuel (AddWatch key retry) script) = Returned tt ->
  exists before ev after,
    trace (run fuel (AddWatch key retry) script) = before ++ ev :: after
    /\ close_event ev = true /\ forallb quiet_event after = true.
Proof.
  intros Hret.
  destruct (@AddWatch_closes key retry fuel script) as (g & Hf & Hr).
  specialize (Hr tt Hret).
  destruct (closing_rule_last Hf Hr) as [[H _]|H]; [discriminate H|exact H].
Qed.

Lemma watcher_returns_only_on_close_witness :
  out (run 20 (AddWatch master (1 * time.Second))
         [RGet (Ok leaseA); RNext (Err ContextCanceled)])
  = Returned tt
  /\ exists before ev after,
       trace (run 20 (AddWatch master (1 * time.Second))
                [RGet (Ok leaseA); RNext (Err ContextCanceled)])
       = before ++ ev :: after
       /\ close_event ev = true /\ forallb quiet_event after = true.
Proof.
  assert (H : out (run 20 (AddWatch master (1 * time.Second))
                     [RGet (Ok leaseA); RNext (Err ContextCanceled)])
              = Returned tt) by reflexivity.
  split; [exact H|].
  exact (@watcher_returns_only_on_close master (1 * time.Second) 20%nat
           [RGet (Ok leaseA); RNext (Err ContextCanceled)] H).
Defined.

(** X21.  [resetWatch] never returns an error: on every way out it
    returns nil and leaves [err] nil, so the [return] after the first
    [resetWatch] and the [continue] after the one for "index cleared" are
    never taken.  With a response it has made the watcher after the
    index of that response; without one, on close, it has left the
    watcher as it was. *)
Theorem resetWatch_never_fails (key : string) (retry : time.Duration)
    (v : watch_vars) (fuel : nat) (script : list reply)
    (p : option error * watch_vars) :
  out (run fuel (resetWatch key retry v) script) = Returned p ->
  fst p = None /\ err (snd p) = None
  /\ match re (snd p) with
     | Some r =>
         watcher (snd p)
         = Some {| WatchKey := key; AfterIndex := ModifiedIndex (RNode r) |}
     | None => watcher (snd p) = watcher v
     end.
Proof.
  intros Hret.
  destruct (@resetWatch_result key retry v false fuel script) as (g & _ & Hr).
  exact (Hr p Hret).
Qed.

Lemma resetWatch_never_fails_witness :
  out (run 20 (resetWatch master (1 * time.Second) watch_init)
         [RGet (Err boom); RSelect Closed])
  = Returned (None, watch_init)
  /\ watcher (snd (@None error, watch_init)) = watcher watch_init.
Proof.
  assert (H : out (run 20 (resetWatch master (1 * time.Second) watch_init)
                     [RGet (Err boom); RSelect Closed])
              = Returned (None, watch_init)) by reflexivity.
  split; [exact H|].
  exact (proj2 (proj2 (@resetWatch_never_fails master (1 * time.Second)
                         watch_init 20%nat
                         [RGet (Err boom); RSelect Closed]
                         (None, watch_init) H))).
Defined.

(* ================================================================== *)
(** * The callback goroutine *)

(** X22.  The loop of the callback goroutine calls [fn] once for each
    value it receives before the first close, in order, with the key,
    with the value before as previous value, and with [prev] as it stood
    for the first of them; it makes no call for what comes after a
    close, and it has returned exactly when a close was received. *)
Theorem callback_loop_calls (key prev : string) (rs : list received) :
  callback_loop key prev rs = (chain key prev (taken rs), sees_close rs).
Proof. apply callback_loop_chain. Qed.

(** X23.  Fed by the watcher goroutine, the callback is called with the
    values the watcher had taken from it, each as new value once and in
    order: the new values are among the replies of the store; the
    previous value of the first call is the empty string, not the value
    of the key. *)
Theorem AddWatchCallback_calls (key : string) (retry : time.Duration)
    (fuel : nat) (script : list reply) (closing : bool) :
  let tr := trace (run fuel (AddWatch key retry) script) in
  AddWatchCallback key retry fuel script closing
  = (chain key "" (sends tr), closing)
  /\ map snd (chain key "" (sends tr)) = sends tr
  /\ subseq (sends tr) (replied tr).
Proof.
  cbv zeta. unfold AddWatchCallback.
  rewrite callback_loop_chain, taken_values, sees_close_values.
  split; [|split].
  - destruct closing; cbn [taken sees_close]; rewrite app_nil_r; reflexivity.
  - apply chain_new_values.
  - destruct (@AddWatch_watcher key retry fuel script) as (g & Hf & _).
    exact (watcher_rule_sends Hf).
Qed.

(* ================================================================== *)
(** * The user cgroup of a process *)

(** X24.  The slice [dirs[5:]] of [setProcessUserCgroupImpl] never
    panics: either the path is refused because it is not under the mount
    point ["/sys/fs/cgroup/"], or it splits into five elements at least,
    and what is joined into the user path is what follows the first
    element after the mount point. *)
Theorem userCgroupDirs_in_range (cgroupPath : string) :
  (strings.HasPrefix cgroupPath "/sys/fs/cgroup/" = false
   /\ userCgroupDirs cgroupPath = BadParameter cgroupPath)
  \/ exists rest,
       cgroupPath = ("/sys/fs/cgroup/" ++ rest)%string
       /\ userCgroupDirs cgroupPath
          = UserDirs (skipn 1 (strings.Split rest strings.slash)).
Proof.
  destruct (strings.HasPrefix cgroupPath "/sys/fs/cgroup/") eqn:H.
  - right. destruct (HasPrefix_mount _ H) as (rest & ->).
    exists rest. split; [reflexivity|].
    unfold userCgroupDirs. rewrite H. cbn [negb].
    rewrite Split_mount.
    destruct (Split_cons rest strings.slash) as (h & t & E). rewrite E.
    reflexivity.
  - left. split; [reflexivity|].
    unfold userCgroupDirs. rewrite H. reflexivity.
Qed.

(** X25.  For the cgroup path of a controller mounted in one directory
    under ["/sys/fs/cgroup/"], the elements joined into the user path
    are those of the path below the directory of the controller: the
    mount point and the directory of the controller are split off, and
    nothing else. *)
Theorem userCgroupDirs_below_controller (controller below : string) :
  strings.Contains controller strings.slash = false ->
  userCgroupDirs
    ("/sys/fs/cgroup/" ++ controller ++ String strings.slash below)%string
  = UserDirs (strings.Split below strings.slash)
  /\ userCgroupDirs ("/sys/fs/cgroup/" ++ controller)%string = UserDirs [].
Proof.
  intros Hc. unfold userCgroupDirs.
  assert (Hm : forall rest,
             strings.HasPrefix ("/sys/fs/cgroup/" ++ rest)%string
               "/sys/fs/cgroup/" = true).
  { intros rest. apply HasPrefix_mount_intro. }
  rewrite !Hm. cbn [negb]. rewrite !Split_mount.
  rewrite (@Split_first controller strings.slash below Hc), (@Split_none controller strings.slash Hc).
  split; reflexivity.
Qed.

Lemma userCgroupDirs_below_controller_witness :
  strings.Contains "cpu,cpuacct" strings.slash = false
  /\ userCgroupDirs "/sys/fs/cgroup/cpu,cpuacct/system.slice/-planet-cee2b8a0.scope"
     = UserDirs ["system.slice"; "-planet-cee2b8a0.scope"].
Proof.
  assert (H : strings.Contains "cpu,cpuacct" strings.slash = false)
    by reflexivity.
  split; [exact H|].
  exact (proj1 (@userCgroupDirs_below_controller "cpu,cpuacct"
                  "system.slice/-planet-cee2b8a0.scope" H)).
Defined.
